(** * LiveAudioCast: session lifecycle and capacity-scaling controller

  A shallow embedding of three source files of the repository:

  - [backend/src/signaling/mediasoupHandler.js]  (module [Mediasoup])
  - [backend/src/signaling/socketGateway.js]     (module [Gateway])
  - [ScalingOrchestrator.js]                     (module [Orchestrator])

  followed by the properties proved of them ([MediasoupFacts],
  [GatewayFacts], [OrchestratorFacts], and [MediasoupExtra],
  [GatewayExtra], [OrchestratorExtra] for the operations around them).

  Modelling conventions.

  - JavaScript [Map]s whose iteration order cannot be observed in the
    result are finite maps ([gmap]); those whose insertion order matters
    (sorting and slicing of entries, sums over values) are association
    lists.
  - An asynchronous method is a state transformer that runs from its
    call to its return.  Where handlers overlap, a method is cut at its
    [await] into the part before and the part after, and the event loop
    interleaves the parts ([scaleUp_begin], [scaleUp_resume], [turn]).
  - The media engine answers by its own rules: a transport is open as
    long as its router is, [produce] and [consume] reject what the router
    of the transport cannot serve, and closing an object fires the close
    events of the objects that depend on it.  The other collaborators
    (cloud provider, Redis, database) succeed; the calls that leave the
    orchestrator are recorded in a log, in program order.
  - [Date.now()] reads a logical clock kept in the state.  It advances
    while [drainInstances] sleeps and between handlers.
  - Numbers are JavaScript numbers with exact rationals as finite values
    (module [JsNum]): doubles round and overflow, rationals do not.
    Statements about finite results are limited to what rounding cannot
    change: comparisons against integers, sums written as the code
    computes them, and bounds that doubles represent exactly.  Counts,
    thresholds and times that the code only compares or subtracts are
    integers. *)

From Stdlib Require Import ZArith QArith Qround Lia Lqa List Sorted DecimalString.
From stdpp Require Import gmap strings list fin_maps.

Local Open Scope string_scope.
Local Open Scope list_scope.

(* ===================================================================== *)
(** * The SFU resource manager ([MediasoupHandler])                       *)
(* ===================================================================== *)

Module Mediasoup.

(** Engine objects.  The media engine hands out opaque objects with a
    unique [id]; the identifier is a handle drawn from a fresh supply.
    [r_broadcast] is a ghost field: it records the argument of the
    [createRouter] call that allocated the router. *)

Record Router := mkRouter {
  r_id : nat;
  r_worker : nat;
  r_broadcast : string
}.

Record Transport := mkTransport {
  t_id : nat;
  t_router : nat
}.

Record Producer := mkProducer {
  p_id : nat;
  p_transport : nat;
  p_router : nat;
  p_codec : string
}.

Record Consumer := mkConsumer {
  c_id : nat;
  c_transport : nat;
  c_producer : nat
}.

(** [rtpCapabilities]: the codecs (mime types) a receiver supports. *)
Definition RtpCapabilities := list string.

#[global] Instance Router_eq_dec : EqDecision Router.
Proof. solve_decision. Defined.
#[global] Instance Transport_eq_dec : EqDecision Transport.
Proof. solve_decision. Defined.
#[global] Instance Producer_eq_dec : EqDecision Producer.
Proof. solve_decision. Defined.
#[global] Instance Consumer_eq_dec : EqDecision Consumer.
Proof. solve_decision. Defined.

(** The fields of [MediasoupHandler] ([workers] holds worker pids),
    together with the part of the engine the handler drives:
    [engine_routers] lists every router allocated by
    [worker.createRouter] and not yet closed, [next_id] is the supply of
    object ids. *)
Record State := mkState {
  workers : list nat;
  routers : gmap string Router;
  transports : gmap nat Transport;
  producers : gmap nat Producer;
  consumers : gmap nat Consumer;
  nextWorkerIndex : nat;
  engine_routers : list Router;
  next_id : nat
}.

Inductive Error :=
| NoWorker                (* [worker] is undefined: the pool is empty *)
| TransportNotFound       (* 'Transport not found' *)
| ProducerNotFound        (* 'Producer not found' *)
| CannotConsume           (* 'Cannot consume this producer' *)
| EngineFailure.          (* the engine call rejected *)

Inductive result (A : Type) :=
| Ok (a : A)
| Throw (e : Error).
Arguments Ok {A} a.
Arguments Throw {A} e.

(** [getNextWorker]: round-robin over the pool. *)
Definition getNextWorker (st : State) : option nat * State :=
  (workers st !! nextWorkerIndex st,
   mkState (workers st) (routers st) (transports st) (producers st) (consumers st)
           ((nextWorkerIndex st + 1) `mod` length (workers st))
           (engine_routers st) (next_id st)).

(** [createRouter(broadcastId)]: takes the next worker, has it allocate a
    router and stores it under [broadcastId].  There is no look-up of
    [this.routers] before the allocation. *)
Definition createRouter (broadcastId : string) (st : State) : result (Router * State) :=
  let '(w, st1) := getNextWorker st in
  match w with
  | None => Throw NoWorker
  | Some worker =>
      let router := mkRouter (next_id st1) worker broadcastId in
      Ok (router,
          mkState (workers st1) (<[broadcastId := router]> (routers st1))
                  (transports st1) (producers st1) (consumers st1)
                  (nextWorkerIndex st1)
                  (engine_routers st1 ++ [router]) (S (next_id st1)))
  end.

Definition getRouter (broadcastId : string) (st : State) : option Router :=
  routers st !! broadcastId.

(** [deleteRouter]: [router.close()] then [this.routers.delete].  Closing
    the router closes its transports in the engine, which fires
    ['transportclose'] on their producers and consumers and
    ['producerclose'] on the consumers of those producers: the handlers
    installed by [createProducer] and [createConsumer] delete them from
    [this.producers] and [this.consumers].  The transports themselves are
    told ['routerclose'], for which [createWebRtcTransport] installs no
    handler: their entries stay in [this.transports], closed. *)
Definition deleteRouter (broadcastId : string) (st : State) : State :=
  match routers st !! broadcastId with
  | Some router =>
      let keep_p := filter (λ kp : nat * Producer, p_router kp.2 ≠ r_id router)
                           (producers st) in
      let keep_c := filter (λ kc : nat * Consumer,
                              t_router <$> transports st !! c_transport kc.2
                              ≠ Some (r_id router)
                              ∧ is_Some (keep_p !! c_producer kc.2))
                           (consumers st) in
      mkState (workers st) (delete broadcastId (routers st))
              (transports st) keep_p keep_c
              (nextWorkerIndex st)
              (filter (λ r, r_id r ≠ r_id router) (engine_routers st)) (next_id st)
  | None => st
  end.

(** [createWebRtcTransport]:
    [this.getRouter(broadcastId) || await this.createRouter(broadcastId)],
    then a transport on that router, registered under its id.  The value
    returned to the caller carries the transport id. *)
Definition createWebRtcTransport (broadcastId : string) (st : State)
  : result (Transport * State) :=
  let r :=
    match getRouter broadcastId st with
    | Some router => Ok (router, st)
    | None => createRouter broadcastId st
    end in
  match r with
  | Throw e => Throw e
  | Ok (router, st1) =>
      let transport := mkTransport (next_id st1) (r_id router) in
      Ok (transport,
          mkState (workers st1) (routers st1)
                  (<[t_id transport := transport]> (transports st1))
                  (producers st1) (consumers st1) (nextWorkerIndex st1)
                  (engine_routers st1) (S (next_id st1)))
  end.

(** The [mediaCodecs] every router is created with ([createRouter]). *)
Definition mediaCodecs : list string := ["audio/opus"].

(** A transport is open in the engine as long as its router is: the
    handler unregisters a transport when it closes it ([closeTransport]),
    so a registered transport is closed only if its router was. *)
Definition transport_open (st : State) (transport : Transport) : bool :=
  bool_decide (t_router transport ∈ r_id <$> engine_routers st).

(** The engine's [transport.produce]: it rejects on a closed transport
    and for a codec (mime type) that is not among the router's
    [mediaCodecs]. *)
Definition engine_produce (st : State) (transport : Transport) (codec : string) : bool :=
  transport_open st transport && bool_decide (codec ∈ mediaCodecs).

(** [createProducer]: the transport must be registered; a rejection of
    [transport.produce] surfaces to the caller and nothing is registered. *)
Definition createProducer (transportId : nat) (codec : string) (st : State)
  : result (Producer * State) :=
  match transports st !! transportId with
  | None => Throw TransportNotFound
  | Some transport =>
      if engine_produce st transport codec then
        let producer := mkProducer (next_id st) transportId (t_router transport) codec in
        Ok (producer,
            mkState (workers st) (routers st) (transports st)
                    (<[p_id producer := producer]> (producers st))
                    (consumers st) (nextWorkerIndex st)
                    (engine_routers st) (S (next_id st)))
      else Throw EngineFailure
  end.

(** The engine's compatibility query [router.canConsume]: the producer is
    one of the router's producers and its codec is among the receiver's
    capabilities. *)
Definition canConsume (st : State) (router : Router) (producerId : nat)
           (caps : RtpCapabilities) : bool :=
  match producers st !! producerId with
  | Some p => bool_decide (p_router p = r_id router) && bool_decide (p_codec p ∈ caps)
  | None => false
  end.

(** The checks [createConsumer] performs before it invokes
    [transport.consume]: both ids known, and
    [Array.from(this.routers.values()).find(r => r.canConsume(..))]
    finds a router. *)
Definition createConsumer_checks (transportId producerId : nat)
           (caps : RtpCapabilities) (st : State)
  : result (Transport * Producer * Router) :=
  match transports st !! transportId with
  | None => Throw TransportNotFound
  | Some transport =>
      match producers st !! producerId with
      | None => Throw ProducerNotFound
      | Some producer =>
          match List.find (λ kr, canConsume st kr.2 producerId caps)
                          (map_to_list (routers st)) with
          | None => Throw CannotConsume
          | Some kr => Ok (transport, producer, kr.2)
          end
      end
  end.

(** The engine's [transport.consume]: the transport looks the producer up
    among the producers of its own router and rejects when it is not
    there, when the transport is closed, and when the receiver's
    capabilities do not cover the producer's codec. *)
Definition engine_consume (st : State) (transport : Transport) (producer : Producer)
           (caps : RtpCapabilities) : bool :=
  transport_open st transport
  && bool_decide (p_router producer = t_router transport)
  && bool_decide (p_codec producer ∈ caps).

(** [createConsumer]: after the checks, [transport.consume] is invoked; a
    rejected promise surfaces to the caller.  On success the consumer is
    registered. *)
Definition createConsumer (transportId producerId : nat) (caps : RtpCapabilities)
           (st : State) : result (Consumer * State) :=
  match createConsumer_checks transportId producerId caps st with
  | Throw e => Throw e
  | Ok (transport, producer, _) =>
      if engine_consume st transport producer caps then
        let consumer := mkConsumer (next_id st) transportId producerId in
        Ok (consumer,
            mkState (workers st) (routers st) (transports st) (producers st)
                    (<[c_id consumer := consumer]> (consumers st))
                    (nextWorkerIndex st) (engine_routers st) (S (next_id st)))
      else Throw EngineFailure
  end.

(** [closeTransport]: [transport.close()] then
    [this.transports.delete(transportId)].  Closing the transport makes
    the engine fire ['transportclose'] on its producers and consumers and
    ['producerclose'] on the consumers of those producers; the handlers
    installed by [createProducer] and [createConsumer] delete the object
    from its map. *)
Definition closeTransport (transportId : nat) (st : State) : State :=
  match transports st !! transportId with
  | Some _ =>
      let keep_p := filter (λ kp : nat * Producer, p_transport kp.2 ≠ transportId)
                           (producers st) in
      let keep_c := filter (λ kc : nat * Consumer,
                              c_transport kc.2 ≠ transportId
                              ∧ is_Some (keep_p !! c_producer kc.2) )
                           (consumers st) in
      mkState (workers st) (routers st) (delete transportId (transports st))
              keep_p keep_c (nextWorkerIndex st) (engine_routers st) (next_id st)
  | None => st
  end.

(** [cleanupBroadcast]: when the broadcast has a router, every key of
    [this.transports] is pushed on [transportsToClose] (the loop body has
    no condition), each is closed, then the router is deleted. *)
Definition cleanupBroadcast (broadcastId : string) (st : State) : State :=
  match getRouter broadcastId st with
  | Some _ =>
      let transportsToClose := (map_to_list (transports st)).*1 in
      deleteRouter broadcastId
        (foldl (λ s id, closeTransport id s) st transportsToClose)
  | None => st
  end.

(** Routers allocated for [broadcastId] and still open in the engine. *)
Definition open_routers (broadcastId : string) (st : State) : list Router :=
  filter (λ r, r_broadcast r = broadcastId) (engine_routers st).

Definition initial (pool : list nat) : State :=
  mkState pool ∅ ∅ ∅ ∅ 0 [] 0.

(** ** Scenarios *)

(** The state after a call, or [otherwise] when the call throws. *)
Definition run {A} (r : result (A * State)) (otherwise : State) : State :=
  match r with
  | Ok (_, st) => st
  | Throw _ => otherwise
  end.

(** A pool of two workers; the same pool after [createRouter "b1"]; and
    the pool after broadcasts ["b1"] and ["b2"] each got a transport
    through [createWebRtcTransport] and the host of ["b2"] published on
    its transport. *)
Definition pool2 : State := initial [100; 101].
Definition one_router : State := run (createRouter "b1" pool2) pool2.
Definition two_broadcasts : State :=
  let s1 := run (createWebRtcTransport "b1" pool2) pool2 in
  let s2 := run (createWebRtcTransport "b2" s1) s1 in
  run (createProducer 3 "audio/opus" s2) s2.

(** The same after a listener of ["b2"] got a transport of its own. *)
Definition with_listener : State :=
  run (createWebRtcTransport "b2" two_broadcasts) two_broadcasts.

(** ** The other operations of the handler *)

(** [closeProducer]: [producer.close()] then [this.producers.delete].
    Closing the producer makes the engine fire ['producerclose'] on its
    consumers, whose handler deletes them from [this.consumers]. *)
Definition closeProducer (producerId : nat) (st : State) : State :=
  match producers st !! producerId with
  | Some _ =>
      mkState (workers st) (routers st) (transports st)
              (delete producerId (producers st))
              (filter (λ kc : nat * Consumer, c_producer kc.2 ≠ producerId)
                      (consumers st))
              (nextWorkerIndex st) (engine_routers st) (next_id st)
  | None => st
  end.

(** [closeConsumer] *)
Definition closeConsumer (consumerId : nat) (st : State) : State :=
  match consumers st !! consumerId with
  | Some _ =>
      mkState (workers st) (routers st) (transports st) (producers st)
              (delete consumerId (consumers st))
              (nextWorkerIndex st) (engine_routers st) (next_id st)
  | None => st
  end.

(** [getStats()] *)
Record Stats := mkStats {
  stat_workers : nat;
  stat_routers : nat;
  stat_transports : nat;
  stat_producers : nat;
  stat_consumers : nat
}.

Definition getStats (st : State) : Stats :=
  mkStats (length (workers st)) (size (routers st)) (size (transports st))
          (size (producers st)) (size (consumers st)).

(** The workers handed out by [n] successive calls of [getNextWorker]. *)
Fixpoint nextWorkers (n : nat) (st : State) : list (option nat) * State :=
  match n with
  | O => ([], st)
  | S n' =>
      let '(w, st1) := getNextWorker st in
      let '(ws, st2) := nextWorkers n' st1 in
      (w :: ws, st2)
  end.

(** The answer of [GET /:broadcastId/rtp-capabilities]
    ([mediasoupRoutes.js]): 404 when the broadcast row is missing, 500 when
    the handler throws, else the capabilities of the broadcast's router,
    which is created first if the broadcast has none. *)
Inductive Response :=
| NotFound404
| ServerError500 (e : Error)
| RtpCapabilitiesOf (router : option Router).

Definition rtpCapabilitiesRoute (broadcastFound : bool) (broadcastId : string)
           (st : State) : Response * State :=
  if negb broadcastFound then (NotFound404, st)
  else
    match getRouter broadcastId st with
    | Some router => (RtpCapabilitiesOf (Some router), st)
    | None =>
        match createRouter broadcastId st with
        | Throw e => (ServerError500 e, st)
        | Ok (_, st1) => (RtpCapabilitiesOf (getRouter broadcastId st1), st1)
        end
    end.

(** The registry is consistent: objects are registered under their own
    id, ids come from the engine's supply, a producer sits on a registered
    transport of its router, and a consumer refers to a registered
    transport and a registered producer. *)
Record consistent (st : State) : Prop := mkConsistent {
  transport_ids : ∀ k t, transports st !! k = Some t → t_id t = k ∧ k < next_id st;
  producer_ids : ∀ k p, producers st !! k = Some p → p_id p = k ∧ k < next_id st;
  consumer_ids : ∀ k c, consumers st !! k = Some c → c_id c = k ∧ k < next_id st;
  producer_transport :
    ∀ k p, producers st !! k = Some p →
           ∃ t, transports st !! p_transport p = Some t ∧ t_router t = p_router p;
  consumer_refs :
    ∀ k c, consumers st !! k = Some c →
           is_Some (transports st !! c_transport c)
           ∧ is_Some (producers st !! c_producer c)
}.

End Mediasoup.

(* ===================================================================== *)
(** * The session registry ([SocketGateway])                              *)
(* ===================================================================== *)

Module Gateway.

Inductive Role := host | speaker | listener.

Inductive BroadcastStatus := scheduled | live | ended | cancelled.

Inductive SessionStatus := connected | disconnected | reconnecting.

#[global] Instance Role_eq_dec : EqDecision Role.
Proof. solve_decision. Defined.
#[global] Instance BroadcastStatus_eq_dec : EqDecision BroadcastStatus.
Proof. solve_decision. Defined.
#[global] Instance SessionStatus_eq_dec : EqDecision SessionStatus.
Proof. solve_decision. Defined.

(** The columns of the [Broadcast] row that the gateway reads or writes. *)
Record Broadcast := mkBroadcast {
  hostId : string;
  status : BroadcastStatus;
  currentListenerCount : nat;
  peakListenerCount : nat
}.

(** A row of the [sessions] table.  The table has a primary key [id] and
    plain (non-unique) indexes on [broadcastId], [userId], [status] and
    [socketId]. *)
Record Session := mkSession {
  s_id : nat;
  s_broadcastId : string;
  s_userId : string;
  s_role : Role;
  s_socketId : string;
  s_status : SessionStatus
}.

(** The value kept in [activeSessions] for a socket. *)
Record SessionInfo := mkSessionInfo {
  sessionId : nat;
  broadcastId : string;
  userId : string;
  role : Role
}.

(** An authenticated socket: its id and the id of [socket.user]. *)
Record Socket := mkSocket {
  socket_id : string;
  user_id : string
}.

Inductive Event :=
| EvError (message : string)
| EvJoined (sessionId : nat) (broadcastId : string) (role : Role) (listenerCount : nat)
| EvUserJoined (userId : string) (role : Role) (listenerCount : nat)
| EvUserLeft (userId : string) (listenerCount : nat).

(** The gateway's own map together with the stores it talks to: the
    [broadcasts] and [sessions] tables and the Redis presence sets
    [broadcast:<id>:users]. *)
Record State := mkState {
  broadcasts : gmap string Broadcast;
  sessions : list Session;
  activeSessions : gmap string SessionInfo;
  presence : gmap string (gset string)
}.

(** [Session.count({ where: { broadcastId, status: 'connected' } })] *)
Definition countConnected (bid : string) (ss : list Session) : nat :=
  length (filter (λ s, s_broadcastId s = bid ∧ s_status s = connected) ss).

(** [broadcastService.updateListenerCount] *)
Definition updateListenerCount (bid : string) (count : nat)
           (bs : gmap string Broadcast) : gmap string Broadcast :=
  match bs !! bid with
  | Some b =>
      <[bid := mkBroadcast (hostId b) (status b) count
                 (if decide (peakListenerCount b < count) then count
                  else peakListenerCount b)]> bs
  | None => bs
  end.

(** [handleJoin(socket, { broadcastId })]: the new state and the events
    emitted, in order. *)
Definition handleJoin (socket : Socket) (bid : string) (st : State)
  : State * list Event :=
  match broadcasts st !! bid with
  | None => (st, [EvError "Broadcast not found"])
  | Some broadcast =>
      if decide (status broadcast = ended) then
        (st, [EvError "Broadcast has ended"])
      else
        let isHost := bool_decide (hostId broadcast = user_id socket) in
        let role := if isHost then host else listener in
        let session := mkSession (length (sessions st)) bid (user_id socket) role
                                 (socket_id socket) connected in
        let sessions' := (sessions st ++ [session])%list in
        let sessionCount := countConnected bid sessions' in
        (mkState (updateListenerCount bid sessionCount (broadcasts st))
                 sessions'
                 (<[socket_id socket :=
                      mkSessionInfo (s_id session) bid (user_id socket) role]>
                    (activeSessions st))
                 (<[bid := {[user_id socket]} ∪ default ∅ (presence st !! bid)]>
                    (presence st)),
         [EvUserJoined (user_id socket) role sessionCount;
          EvJoined (s_id session) bid role sessionCount])
  end.

(** [handleLeave(socket)].  When the broadcast row is gone,
    [updateListenerCount] throws and the rest of the handler is skipped. *)
Definition handleLeave (socket : Socket) (st : State) : State * list Event :=
  match activeSessions st !! socket_id socket with
  | None => (st, [])
  | Some info =>
      let sessions' :=
        map (λ s, if decide (s_id s = sessionId info)
                  then mkSession (s_id s) (s_broadcastId s) (s_userId s) (s_role s)
                                 (s_socketId s) disconnected
                  else s) (sessions st) in
      let presence' :=
        <[broadcastId info :=
            default ∅ (presence st !! broadcastId info) ∖ {[userId info]}]>
          (presence st) in
      let sessionCount := countConnected (broadcastId info) sessions' in
      match broadcasts st !! broadcastId info with
      | None => (mkState (broadcasts st) sessions' (activeSessions st) presence', [])
      | Some _ =>
          (mkState (updateListenerCount (broadcastId info) sessionCount (broadcasts st))
                   sessions'
                   (delete (socket_id socket) (activeSessions st))
                   presence',
           [EvUserLeft (userId info) sessionCount])
      end
  end.

(** Host-role sessions of a broadcast that are still connected. *)
Definition hostSessions (bid : string) (st : State) : list Session :=
  filter (λ s, s_broadcastId s = bid ∧ s_role s = host ∧ s_status s = connected)
         (sessions st).

(** Every host-role session of a broadcast was opened by the user the
    broadcast names as its host. *)
Definition host_sessions_belong_to_host (st : State) : Prop :=
  ∀ s, s ∈ sessions st → s_role s = host →
       ∃ b, broadcasts st !! s_broadcastId s = Some b ∧ hostId b = s_userId s.

(** Broadcast ["X"] is live, hosted by ["alice"], who connects on two
    sockets. *)
Definition live_X : State :=
  mkState {["X" := mkBroadcast "alice" live 0 0]} [] ∅ ∅.
Definition alice_1 : Socket := mkSocket "socket-1" "alice".
Definition alice_2 : Socket := mkSocket "socket-2" "alice".

(** ** The other handlers *)

(** [handleDisconnect(socket)] *)
Definition handleDisconnect (socket : Socket) (st : State) : State * list Event :=
  handleLeave socket st.

(** The events of the signaling handlers. *)
Inductive SignalEvent :=
| SigError (message : string)
| PublishAccepted (sdp : string)
| SubscribeOffer (broadcastId : string).

(** [handlePublishOffer(socket, { broadcastId, sdp })] *)
Definition handlePublishOffer (socket : Socket) (bid sdp : string) (st : State)
  : list SignalEvent :=
  match activeSessions st !! socket_id socket with
  | Some info =>
      if decide (role info = host) then [PublishAccepted sdp]
      else [SigError "Only host can publish"]
  | None => [SigError "Only host can publish"]
  end.

(** [handleSubscribeRequest(socket, { broadcastId })] *)
Definition handleSubscribeRequest (socket : Socket) (bid : string) (st : State)
  : list SignalEvent :=
  match activeSessions st !! socket_id socket with
  | Some _ => [SubscribeOffer bid]
  | None => [SigError "Not in broadcast"]
  end.

(** The update [handleLeave] applies to the rows of the [sessions] table:
    [Session.update({ status: 'disconnected' }, { where: { id } })]. *)
Definition disconnect (k : nat) (s : Session) : Session :=
  if decide (s_id s = k)
  then mkSession (s_id s) (s_broadcastId s) (s_userId s) (s_role s)
                 (s_socketId s) disconnected
  else s.

(** The states the gateway reaches from an empty registry, over broadcast
    rows that count no listener yet, by joins and leaves. *)
Inductive reachable : State → Prop :=
| reach_start bs :
    (∀ k b, bs !! k = Some b → currentListenerCount b = 0) →
    reachable (mkState bs [] ∅ ∅)
| reach_join st socket bid :
    reachable st → reachable (handleJoin socket bid st).1
| reach_leave st socket :
    reachable st → reachable (handleLeave socket st).1.

(** Session rows are numbered in order; a socket's entry designates a
    connected row carrying the same data, in a broadcast that exists; the
    listener count stored with a broadcast is its number of connected
    sessions and never exceeds the stored peak. *)
Record registry_ok (st : State) : Prop := mkRegistryOk {
  session_index : ∀ i s, sessions st !! i = Some s → s_id s = i;
  active_session :
    ∀ sock info, activeSessions st !! sock = Some info →
      ∃ s, sessions st !! sessionId info = Some s
           ∧ s_status s = connected ∧ s_broadcastId s = broadcastId info
           ∧ s_userId s = userId info ∧ s_role s = role info
           ∧ s_socketId s = sock;
  active_broadcast :
    ∀ sock info, activeSessions st !! sock = Some info →
      is_Some (broadcasts st !! broadcastId info);
  listener_counts :
    ∀ bid b, broadcasts st !! bid = Some b →
      currentListenerCount b = countConnected bid (sessions st)
      ∧ currentListenerCount b <= peakListenerCount b
}.

End Gateway.

(* ===================================================================== *)
(** * JavaScript numbers                                                  *)
(* ===================================================================== *)

(** A JavaScript number is a finite value, [NaN] or an infinity.  Finite
    values are exact rationals: rounding of doubles and the sign of zero
    are outside the model. *)

Module JsNum.

Inductive jsnum :=
| Fin (q : Q)
| NaN
| PInf
| NInf.

Definition of_Z (z : Z) : jsnum := Fin (inject_Z z).

Definition Qlt_bool (x y : Q) : bool := negb (Qle_bool y x).

Definition jsneg (a : jsnum) : jsnum :=
  match a with
  | Fin x => Fin (- x)
  | NaN => NaN
  | PInf => NInf
  | NInf => PInf
  end.

Definition jsadd (a b : jsnum) : jsnum :=
  match a, b with
  | NaN, _ | _, NaN => NaN
  | Fin x, Fin y => Fin (x + y)
  | PInf, NInf | NInf, PInf => NaN
  | PInf, _ | _, PInf => PInf
  | NInf, _ | _, NInf => NInf
  end.

Definition jssub (a b : jsnum) : jsnum := jsadd a (jsneg b).

Definition jsmul (a b : jsnum) : jsnum :=
  match a, b with
  | NaN, _ | _, NaN => NaN
  | Fin x, Fin y => Fin (x * y)
  | Fin x, PInf | PInf, Fin x =>
      if Qeq_bool x 0 then NaN else if Qlt_bool 0 x then PInf else NInf
  | Fin x, NInf | NInf, Fin x =>
      if Qeq_bool x 0 then NaN else if Qlt_bool 0 x then NInf else PInf
  | PInf, PInf | NInf, NInf => PInf
  | PInf, NInf | NInf, PInf => NaN
  end.

Definition jsdiv (a b : jsnum) : jsnum :=
  match a, b with
  | NaN, _ | _, NaN => NaN
  | Fin x, Fin y =>
      if Qeq_bool y 0 then
        if Qeq_bool x 0 then NaN else if Qlt_bool 0 x then PInf else NInf
      else Fin (x / y)
  | Fin _, (PInf | NInf) => Fin 0
  | PInf, Fin y => if Qlt_bool y 0 then NInf else PInf
  | NInf, Fin y => if Qlt_bool y 0 then PInf else NInf
  | (PInf | NInf), (PInf | NInf) => NaN
  end.

(** [Math.ceil] *)
Definition jsceil (a : jsnum) : jsnum :=
  match a with
  | Fin x => of_Z (Qceiling x)
  | _ => a
  end.

(** [a < b] and [a <= b]: false as soon as an operand is [NaN]. *)
Definition jslt (a b : jsnum) : bool :=
  match a, b with
  | NaN, _ | _, NaN => false
  | Fin x, Fin y => Qlt_bool x y
  | NInf, (Fin _ | PInf) => true
  | Fin _, PInf => true
  | _, _ => false
  end.

Definition jsle (a b : jsnum) : bool :=
  match a, b with
  | NaN, _ | _, NaN => false
  | Fin x, Fin y => Qle_bool x y
  | NInf, _ => true
  | _, PInf => true
  | _, _ => false
  end.

(** [Math.min] and [Math.max] of two arguments. *)
Definition jsmin (a b : jsnum) : jsnum :=
  match a, b with
  | NaN, _ | _, NaN => NaN
  | _, _ => if jsle a b then a else b
  end.

Definition jsmax (a b : jsnum) : jsnum :=
  match a, b with
  | NaN, _ | _, NaN => NaN
  | _, _ => if jsle a b then b else a
  end.

(** Truthiness of a number: [0] and [NaN] are falsy. *)
Definition truthy (a : jsnum) : bool :=
  match a with
  | Fin x => negb (Qeq_bool x 0)
  | NaN => false
  | PInf | NInf => true
  end.

(** [v || 0] for a property [v] that may be missing ([undefined]). *)
Definition or0 (v : option jsnum) : jsnum :=
  match v with
  | Some a => if truthy a then a else Fin 0
  | None => Fin 0
  end.

(** [acc + v] where the property [v] may be missing: [undefined] makes the
    sum [NaN]. *)
Definition add_prop (acc : jsnum) (v : option jsnum) : jsnum :=
  match v with
  | Some a => jsadd acc a
  | None => NaN
  end.

(** The element count [Array.prototype.slice(0, n)] keeps from an array of
    length [len]: [n] is truncated, [NaN] counts as [0], a negative [n]
    counts from the end. *)
Definition slice_count (n : jsnum) (len : nat) : nat :=
  match n with
  | Fin x =>
      let k := Z.quot (Qnum x) (Zpos (Qden x)) in
      if (k <? 0)%Z then Z.to_nat (Z.max 0 (Z.of_nat len + k))
      else Nat.min (Z.to_nat k) len
  | NaN => 0
  | PInf => len
  | NInf => 0
  end.


End JsNum.

(* ===================================================================== *)
(** * The capacity controller ([ScalingOrchestrator])                     *)
(* ===================================================================== *)

Module Orchestrator.
Import JsNum.

(** [config.scaling] *)
Record ScalingConfig := mkScaling {
  minInstances : Z;
  maxInstances : Z;
  targetCPU : Q;
  targetMemory : Q;
  targetListenersPerInstance : Z;
  scaleUpThreshold : Q;
  scaleDownThreshold : Q;
  cooldownPeriod : Z;
  cdnSwitchThreshold : Z;
  relayActivationThreshold : Z
}.

Record Config := mkConfig {
  scaling : ScalingConfig;
  regions : list string;
  useKubernetes : bool
}.

(** The defaults written in the constructor. *)
Definition default_scaling : ScalingConfig :=
  mkScaling 1 10 70 80 50 80 30 300000 40 200.

Definition default_config : Config :=
  mkConfig default_scaling ["us-east-1"; "eu-west-1"; "ap-southeast-1"] false.

(** The [metrics] object of an ['orchestrator:metrics'] message.  Each
    property may be missing. *)
Record MetricsMsg := mkMetricsMsg {
  msg_cpu : option jsnum;
  msg_memory : option jsnum;
  msg_listenerCount : option jsnum;
  msg_bandwidth : option jsnum;
  msg_errorRate : option jsnum
}.

(** A value of [this.metrics]: [{ ...metrics, timestamp: Date.now() }]. *)
Record Snapshot := mkSnapshot {
  cpu : option jsnum;
  memory : option jsnum;
  listenerCount : option jsnum;
  bandwidth : option jsnum;
  errorRate : option jsnum;
  timestamp : Z
}.

Record Instance := mkInstance {
  endpoint : string;
  instanceType : string
}.

Record RelayNode := mkRelayNode {
  relay_broadcastId : string;
  relay_region : option string;
  relay_createdAt : Z;
  relay_listenerCount : jsnum
}.

(** The object built by the metrics-collection timer. *)
Record Aggregated := mkAggregated {
  totalInstances : nat;
  totalRelays : nat;
  totalListeners : jsnum;
  totalBandwidth : jsnum;
  averageCPU : jsnum;
  averageMemory : jsnum
}.

Inductive ScaleType := scale_up | scale_down.

(** An entry of [scalingHistory]. *)
Record ScalingEvent := mkScalingEvent {
  ev_type : ScaleType;
  ev_timestamp : Z;
  ev_instances : jsnum;
  ev_broadcastId : string;
  ev_targetLoad : option jsnum
}.

Inductive DrainOutcome := Drained | TimedOut.

(** Calls that leave the orchestrator (cloud provider, Redis, event
    emitter), recorded in program order. *)
Inductive Effect :=
| ScaleKubernetesDeployment (delta : jsnum)
| ScaleECSService (count : jsnum)
| TerminateECSInstances (ids : list string)
| EmitScaled (instances total : jsnum)
| MarkDraining (instanceId : string)
| DrainReturned (outcome : DrainOutcome)
| LaunchRelayInstance (relay : nat) (region : option string)
                      (instanceType broadcastId : string)
| ConfigureRelay (relay : nat) (broadcastId : string)
| UpdateRoutingRules (broadcastId : string) (relay : nat)
| PublishRelayAdded (broadcastId : string) (relay : nat) (region : option string)
| CreateCDNDistribution (broadcastId : string) (distribution : nat)
| UpdateCDNOrigin (distribution : nat)
| EnableHLSPackaging (broadcastId : string)
| UpdateDNSForCDN (broadcastId : string)
| PublishCdnActivated (broadcastId : string)
| PushMetricsToCloudWatch (instanceId : string)
| HandleHighLoad (instanceId : string)
| HandleHighErrorRate (instanceId : string)
| StoreAggregated (a : Aggregated)
| EmitMetrics (a : Aggregated).

Definition Metrics := list (string * Snapshot).

(** The state-tracking fields of the orchestrator.  [clock] is the value
    [Date.now()] returns; [next_handle] is the provider's supply of fresh
    identifiers (pod uid, task ARN, distribution id); [log] collects the
    outgoing calls. *)
Record State := mkState {
  config : Config;
  instances : list (string * Instance);
  relayNodes : gmap nat RelayNode;
  cdnDistributions : gmap string nat;
  metrics : Metrics;
  scalingHistory : list ScalingEvent;
  lastScaleAction : Z;
  clock : Z;
  next_handle : nat;
  log : list Effect
}.

Definition initial (cfg : Config) (now : Z) : State :=
  mkState cfg [] ∅ ∅ [] [] 0 now 0 [].

Definition set_metrics (m : Metrics) (st : State) : State :=
  mkState (config st) (instances st) (relayNodes st) (cdnDistributions st) m
          (scalingHistory st) (lastScaleAction st) (clock st) (next_handle st) (log st).

Definition set_instances (i : list (string * Instance)) (st : State) : State :=
  mkState (config st) i (relayNodes st) (cdnDistributions st) (metrics st)
          (scalingHistory st) (lastScaleAction st) (clock st) (next_handle st) (log st).

Definition emit (e : Effect) (st : State) : State :=
  mkState (config st) (instances st) (relayNodes st) (cdnDistributions st) (metrics st)
          (scalingHistory st) (lastScaleAction st) (clock st) (next_handle st)
          (log st ++ [e]).

(** Time passes: the clock moves forward by [dt] milliseconds. *)
Definition advance (dt : Z) (st : State) : State :=
  mkState (config st) (instances st) (relayNodes st) (cdnDistributions st) (metrics st)
          (scalingHistory st) (lastScaleAction st) (clock st + dt)%Z (next_handle st)
          (log st).

(** [this.lastScaleAction = Date.now(); this.scalingHistory.push(ev)] *)
Definition record_action (ev : ScalingEvent) (st : State) : State :=
  mkState (config st) (instances st) (relayNodes st) (cdnDistributions st) (metrics st)
          (scalingHistory st ++ [ev]) (clock st) (clock st) (next_handle st) (log st).

(** [Map.get] and [Map.set] on an insertion-ordered map. *)
Fixpoint map_get {V} (k : string) (m : list (string * V)) : option V :=
  match m with
  | [] => None
  | (k', v) :: m' => if String.eqb k' k then Some v else map_get k m'
  end.

Fixpoint map_set {V} (k : string) (v : V) (m : list (string * V)) : list (string * V) :=
  match m with
  | [] => [(k, v)]
  | (k', v') :: m' =>
      if String.eqb k' k then (k, v) :: m' else (k', v') :: map_set k v m'
  end.

(** [x > c] for a property that may be missing. *)
Definition prop_gt (v : option jsnum) (c : jsnum) : bool :=
  match v with
  | Some a => jslt c a
  | None => false
  end.

(** [processMetrics({ instanceId, metrics })] *)
Definition processMetrics (instanceId : string) (m : MetricsMsg) (st : State) : State :=
  let st1 := set_metrics
               (map_set instanceId
                  (mkSnapshot (msg_cpu m) (msg_memory m) (msg_listenerCount m)
                              (msg_bandwidth m) (msg_errorRate m) (clock st))
                  (metrics st)) st in
  let st2 := emit (PushMetricsToCloudWatch instanceId) st1 in
  let st3 := if prop_gt (msg_cpu m) (of_Z 90) || prop_gt (msg_memory m) (of_Z 90)
             then emit (HandleHighLoad instanceId) st2 else st2 in
  if prop_gt (msg_errorRate m) (Fin (5 # 100))
  then emit (HandleHighErrorRate instanceId) st3 else st3.

(** The number of instances [scaleUp] decides to add. *)
Definition instancesToAdd (targetLoad : jsnum) (st : State) : jsnum :=
  let sc := scaling (config st) in
  let currentInstances := of_Z (Z.of_nat (length (instances st))) in
  let instancesNeeded :=
    jsceil (jsdiv targetLoad (of_Z (targetListenersPerInstance sc))) in
  jsmin (jssub instancesNeeded currentInstances)
        (jssub (of_Z (maxInstances sc)) currentInstances).

(** [scaleUp(broadcastId, targetLoad)] *)
Definition scaleUp (broadcastId : string) (targetLoad : jsnum) (st : State) : State :=
  let sc := scaling (config st) in
  if (clock st - lastScaleAction st <? cooldownPeriod sc)%Z then st
  else
    let currentInstances := of_Z (Z.of_nat (length (instances st))) in
    if jsle (instancesToAdd targetLoad st) (Fin 0) then st
    else
      let st1 := emit (if useKubernetes (config st)
                       then ScaleKubernetesDeployment (instancesToAdd targetLoad st)
                       else ScaleECSService (instancesToAdd targetLoad st)) st in
      let st2 := record_action
                   (mkScalingEvent scale_up (clock st1) (instancesToAdd targetLoad st)
                                   broadcastId (Some targetLoad)) st1 in
      emit (EmitScaled (instancesToAdd targetLoad st)
                       (jsadd currentInstances (instancesToAdd targetLoad st))) st2.

(** What the polling loop of [drainInstances] sees of the outside world:
    the content of [this.metrics] at the [k]-th evaluation of the loop
    condition (metrics messages keep arriving while the loop sleeps), and
    by how many milliseconds the [k]-th [setTimeout(resolve, 5000)] fires
    late. *)
Record DrainEnv := mkDrainEnv {
  metrics_at : nat → Metrics;
  late : nat → nat
}.

Definition maxDrainTime : Z := 60000.
Definition pollInterval : Z := 5000.

(** The inner [for] loop: [allDrained] stays true unless some listed
    instance has a snapshot with [listenerCount > 0]. *)
Definition allDrained (instanceIds : list string) (m : Metrics) : bool :=
  forallb (λ id, match map_get id m with
                 | Some s => negb (prop_gt (listenerCount s) (Fin 0))
                 | None => true
                 end) instanceIds.

(** The [while (Date.now() - startTime < maxDrainTime)] loop, [k] counting
    the evaluations of its condition. *)
Fixpoint drain_loop (fuel k : nat) (startTime : Z) (env : DrainEnv)
         (instanceIds : list string) (st : State) : option State :=
  match fuel with
  | O => None
  | S fuel' =>
      let st1 := set_metrics (metrics_at env k) st in
      if (clock st1 - startTime <? maxDrainTime)%Z then
        if allDrained instanceIds (metrics st1) then
          Some (emit (DrainReturned Drained) st1)
        else
          drain_loop fuel' (S k) startTime env instanceIds
                     (advance (pollInterval + Z.of_nat (late env k)) st1)
      else Some (emit (DrainReturned TimedOut) st1)
  end.

(** [drainInstances(instanceIds)].  Thirteen evaluations of the loop
    condition are always enough (see [drainInstances_returns]). *)
Definition drainInstances (env : DrainEnv) (instanceIds : list string) (st : State)
  : option State :=
  let st1 := fold_left (λ s id, emit (MarkDraining id) s) instanceIds st in
  drain_loop 13 0 (clock st1) env instanceIds st1.

(** The key of the comparator in [scaleDown]:
    [metrics?.listenerCount || 0]. *)
Definition load_key (m : Metrics) (id : string) : jsnum :=
  or0 (match map_get id m with
       | Some s => listenerCount s
       | None => None
       end).

(** [Array.prototype.sort] is stable: entries are ordered by ascending key
    and entries with equal keys keep their order. *)
Fixpoint insert_by_load (m : Metrics) (x : string * Instance)
         (l : list (string * Instance)) : list (string * Instance) :=
  match l with
  | [] => [x]
  | y :: l' =>
      if jslt (load_key m y.1) (load_key m x.1) then y :: insert_by_load m x l'
      else x :: y :: l'
  end.

Definition sort_by_load (m : Metrics) (l : list (string * Instance))
  : list (string * Instance) :=
  fold_right (insert_by_load m) [] l.

(** The three numbers [scaleDown] computes before it acts. *)
Definition totalLoad (st : State) : jsnum :=
  fold_left (λ sum kv, add_prop sum (listenerCount kv.2)) (metrics st) (Fin 0).

Definition instancesToRemove (st : State) : jsnum :=
  let sc := scaling (config st) in
  let currentInstances := of_Z (Z.of_nat (length (instances st))) in
  let instancesNeeded :=
    jsceil (jsdiv (totalLoad st) (of_Z (targetListenersPerInstance sc))) in
  jsmax (jssub currentInstances instancesNeeded)
        (jssub currentInstances (of_Z (minInstances sc))).

Definition instancesToTerminate (st : State) : list string :=
  (take (slice_count (instancesToRemove st) (length (instances st)))
        (sort_by_load (metrics st) (instances st))).*1.

(** [scaleDown(broadcastId)] *)
Definition scaleDown (env : DrainEnv) (broadcastId : string) (st : State)
  : option State :=
  let sc := scaling (config st) in
  if (clock st - lastScaleAction st <? cooldownPeriod sc)%Z then Some st
  else if jsle (instancesToRemove st) (Fin 0) then Some st
  else
    match drainInstances env (instancesToTerminate st) st with
    | None => None
    | Some st1 =>
        let st2 := emit (if useKubernetes (config st)
                         then ScaleKubernetesDeployment (jsneg (instancesToRemove st))
                         else TerminateECSInstances (instancesToTerminate st)) st1 in
        Some (record_action
                (mkScalingEvent scale_down (clock st2) (instancesToRemove st)
                                broadcastId None) st2)
    end.

(** A field of the Redis hash [presence:<broadcastId>]: the user id and
    the [region] property of the parsed value, if it has one. *)
Definition Listener := (string * option string)%type.

(** [listener.region || 'unknown']: the empty string is falsy too. *)
Definition region_of (l : Listener) : string :=
  match l.2 with
  | Some r => if String.eqb r "" then "unknown" else r
  | None => "unknown"
  end.

(** [distribution] is a plain object.  It is represented by its entries
    whose value is a number, in the order [Object.entries] lists them.

    The names every object inherits from [Object.prototype]: for such a
    [region], [distribution[region]] is the inherited property and not
    [undefined], so that [(distribution[region] || 0) + 1] is a string; the
    string is stored under the name (for ['__proto__'] the assignment has
    no effect) and stays a string.  Such an entry never holds a number. *)
Definition inherited_names : list string :=
  ["constructor"; "__defineGetter__"; "__defineSetter__"; "hasOwnProperty";
   "__lookupGetter__"; "__lookupSetter__"; "isPrototypeOf";
   "propertyIsEnumerable"; "toString"; "valueOf"; "__proto__"; "toLocaleString"].

(** A name is an array index when it is the canonical decimal numeral of
    an integer below [2^32 - 1]. *)
Definition array_index (name : string) : option N :=
  match NilEmpty.uint_of_string name with
  | Some u =>
      let n := N.of_uint u in
      if String.eqb (NilEmpty.string_of_uint (N.to_uint n)) name
         && (n <? 4294967295)%N
      then Some n else None
  | None => None
  end.

(** Own properties are enumerated array indices first, in ascending
    order, then the other names in the order of their creation. *)
Definition enumerated_before (a b : string) : bool :=
  match array_index a, array_index b with
  | Some i, Some j => (i <? j)%N
  | Some _, None => true
  | None, _ => false
  end.

(** A new property with value [1]. *)
Fixpoint add_entry (region : string) (d : list (string * nat)) : list (string * nat) :=
  match d with
  | [] => [(region, 1%nat)]
  | (r, c) :: d' =>
      if enumerated_before region r then (region, 1%nat) :: (r, c) :: d'
      else (r, c) :: add_entry region d'
  end.

(** An existing property, incremented in place. *)
Fixpoint increment (region : string) (d : list (string * nat)) : list (string * nat) :=
  match d with
  | [] => []
  | (r, c) :: d' =>
      if String.eqb r region then (r, S c) :: d' else (r, c) :: increment region d'
  end.

(** [distribution[region] = (distribution[region] || 0) + 1] *)
Definition bump (region : string) (d : list (string * nat)) : list (string * nat) :=
  if bool_decide (region ∈ inherited_names) then d
  else
    match map_get region d with
    | Some _ => increment region d
    | None => add_entry region d
    end.

Definition getListenerRegionDistribution (listeners : list Listener)
  : list (string * nat) :=
  fold_left (λ d l, bump (region_of l) d) listeners [].

(** [selectOptimalRegion(distribution)]: starts from [regions[0]] and moves
    to a configured region whenever its count is strictly larger than the
    largest seen so far. *)
Definition selectOptimalRegion (cfg : Config) (distribution : list (string * nat))
  : option string :=
  (fold_left
     (λ (acc : nat * option string) (rc : string * nat),
        if (acc.1 <? rc.2)%nat && bool_decide (rc.1 ∈ regions cfg)
        then (rc.2, Some rc.1) else acc)
     distribution (0, head (regions cfg))).2.

Definition selectInstanceType (load : jsnum) : string :=
  if jslt load (of_Z 100) then "t3.medium"
  else if jslt load (of_Z 500) then "t3.large"
  else if jslt load (of_Z 1000) then "t3.xlarge"
  else "t3.2xlarge".

(** [addRelayNode(broadcastId, currentLoad)].  [listeners] is the answer of
    [redis.hgetall] for the broadcast's presence hash.  The provider
    returns a relay instance with a fresh id; it is registered under that
    id. *)
Definition addRelayNode (broadcastId : string) (currentLoad : jsnum)
           (listeners : list Listener) (st : State) : nat * State :=
  let listenerRegions := getListenerRegionDistribution listeners in
  let targetRegion := selectOptimalRegion (config st) listenerRegions in
  let relay := next_handle st in
  let node := mkRelayNode broadcastId targetRegion (clock st) (Fin 0) in
  (relay,
   mkState (config st) (instances st) (<[relay := node]> (relayNodes st))
           (cdnDistributions st) (metrics st) (scalingHistory st)
           (lastScaleAction st) (clock st) (S (next_handle st))
           (log st ++ [LaunchRelayInstance relay targetRegion
                         (selectInstanceType currentLoad) broadcastId;
                       ConfigureRelay relay broadcastId;
                       UpdateRoutingRules broadcastId relay;
                       PublishRelayAdded broadcastId relay targetRegion])).

(** [activateCDN(broadcastId)]: the distribution of the broadcast is
    reused when there is one. *)
Definition activateCDN (broadcastId : string) (st : State) : State :=
  let '(distribution, st1) :=
    match cdnDistributions st !! broadcastId with
    | Some d => (d, st)
    | None =>
        let d := next_handle st in
        (d, mkState (config st) (instances st) (relayNodes st)
                    (<[broadcastId := d]> (cdnDistributions st)) (metrics st)
                    (scalingHistory st) (lastScaleAction st) (clock st)
                    (S (next_handle st))
                    (log st ++ [CreateCDNDistribution broadcastId d]))
    end in
  fold_left (λ s e, emit e s)
            [UpdateCDNOrigin distribution; EnableHLSPackaging broadcastId;
             UpdateDNSForCDN broadcastId; PublishCdnActivated broadcastId] st1.

Inductive RequestType := ReqScaleUp | ReqScaleDown | ReqAddRelay | ReqActivateCDN | ReqOther.

(** A message on ['orchestrator:scaling']. *)
Record Request := mkRequest {
  req_type : RequestType;
  req_broadcastId : string;
  req_currentLoad : jsnum;
  req_targetLoad : jsnum
}.

(** [handleScalingRequest(request)] *)
Definition handleScalingRequest (env : DrainEnv) (listeners : list Listener)
           (request : Request) (st : State) : option State :=
  match req_type request with
  | ReqScaleUp => Some (scaleUp (req_broadcastId request) (req_targetLoad request) st)
  | ReqScaleDown => scaleDown env (req_broadcastId request) st
  | ReqAddRelay =>
      Some (addRelayNode (req_broadcastId request) (req_currentLoad request)
                         listeners st).2
  | ReqActivateCDN => Some (activateCDN (req_broadcastId request) st)
  | ReqOther => Some st
  end.

(** [v || 0] summed over the values of [this.metrics]. *)
Definition sum_field (f : Snapshot → option jsnum) (m : Metrics) : jsnum :=
  fold_left (λ acc kv, jsadd acc (or0 (f kv.2))) m (Fin 0).

(** The object [aggregated] built on each tick of
    [startMetricsCollection]. *)
Definition aggregate (st : State) : Aggregated :=
  let count := length (metrics st) in
  let cpuSum := sum_field cpu (metrics st) in
  let memorySum := sum_field memory (metrics st) in
  mkAggregated
    (length (instances st))
    (size (relayNodes st))
    (sum_field listenerCount (metrics st))
    (sum_field bandwidth (metrics st))
    (if (0 <? count)%nat then jsdiv cpuSum (of_Z (Z.of_nat count)) else Fin 0)
    (if (0 <? count)%nat then jsdiv memorySum (of_Z (Z.of_nat count)) else Fin 0).

(** One tick of [startMetricsCollection]: the aggregate is stored in
    Redis and emitted. *)
Definition metricsCollectionTick (st : State) : State :=
  let aggregated := aggregate st in
  emit (EmitMetrics aggregated) (emit (StoreAggregated aggregated) st).

(** An element of the answer of [getActiveBroadcasts()]. *)
Record ActiveBroadcast := mkActiveBroadcast {
  ab_id : string;
  ab_listenerCount : Z;
  cdnActivated : bool;
  relaysActivated : bool
}.

(** The body of the loop over the active broadcasts in a tick of
    [startAutoScaling]: CDN activation, then relay activation. *)
Definition activateFor (sc : ScalingConfig) (listenersOf : string → list Listener)
           (s : State) (broadcast : ActiveBroadcast) : State :=
  let s1 :=
    if (cdnSwitchThreshold sc <=? ab_listenerCount broadcast)%Z
       && negb (cdnActivated broadcast)
    then activateCDN (ab_id broadcast) s else s in
  if (relayActivationThreshold sc <=? ab_listenerCount broadcast)%Z
     && negb (relaysActivated broadcast)
  then (addRelayNode (ab_id broadcast) (of_Z (ab_listenerCount broadcast))
                     (listenersOf (ab_id broadcast)) s1).2
  else s1.

(** One tick of [startAutoScaling].  [metrics] is the answer of
    [getAggregatedMetrics()], [broadcasts] that of [getActiveBroadcasts()],
    [listenersOf] the presence hash of each broadcast. *)
Definition autoScalingTick (metrics : Aggregated) (broadcasts : list ActiveBroadcast)
           (listenersOf : string → list Listener) (env : DrainEnv) (st : State)
  : option State :=
  let sc := scaling (config st) in
  let scaled :=
    if jslt (Fin (targetCPU sc)) (averageCPU metrics)
       || jslt (Fin (targetMemory sc)) (averageMemory metrics)
    then Some (scaleUp "auto" (jsmul (totalListeners metrics) (Fin (3 # 2))) st)
    else if jslt (averageCPU metrics) (Fin (scaleDownThreshold sc))
            && jslt (averageMemory metrics) (Fin (scaleDownThreshold sc))
    then scaleDown env "auto" st
    else Some st in
  match scaled with
  | None => None
  | Some st1 => Some (fold_left (activateFor sc listenersOf) broadcasts st1)
  end.


(** The aggregate the staleness rule describes: only the snapshots whose
    timestamp is at most [window] milliseconds old at the time of the tick
    are aggregated. *)
Definition fresh (window : Z) (now : Z) (kv : string * Snapshot) : bool :=
  (now - timestamp kv.2 <=? window)%Z.

Definition aggregate_fresh (window : Z) (st : State) : Aggregated :=
  aggregate (set_metrics (List.filter (fresh window (clock st)) (metrics st)) st).



(** The same snapshots with other timestamps. *)
Definition retime (ts : string → Z) (m : Metrics) : Metrics :=
  map (λ kv : string * Snapshot,
         (kv.1, mkSnapshot (cpu kv.2) (memory kv.2) (listenerCount kv.2)
                           (bandwidth kv.2) (errorRate kv.2) (ts kv.1))) m.

(** ** Handlers that overlap

    [scaleUp] is an [async] method: it runs up to
    [await this.scaleECSService(..)] (or [scaleKubernetesDeployment]) and
    resumes when the provider has answered.  The ['message'] listener of
    the pub/sub connection does not wait for [handleRedisMessage], so the
    handler of a later message starts while an earlier one is suspended. *)

(** The local variables of a [scaleUp] suspended at its [await]. *)
Record Suspended := mkSuspended {
  su_broadcastId : string;
  su_targetLoad : jsnum;
  su_currentInstances : jsnum;
  su_instancesToAdd : jsnum
}.

(** [scaleUp] from its first line to the [await]: the cooldown test, the
    number of instances to add, the call to the provider. *)
Definition scaleUp_begin (broadcastId : string) (targetLoad : jsnum) (st : State)
  : State * option Suspended :=
  let sc := scaling (config st) in
  if (clock st - lastScaleAction st <? cooldownPeriod sc)%Z then (st, None)
  else
    let currentInstances := of_Z (Z.of_nat (length (instances st))) in
    if jsle (instancesToAdd targetLoad st) (Fin 0) then (st, None)
    else
      (emit (if useKubernetes (config st)
             then ScaleKubernetesDeployment (instancesToAdd targetLoad st)
             else ScaleECSService (instancesToAdd targetLoad st)) st,
       Some (mkSuspended broadcastId targetLoad currentInstances
                         (instancesToAdd targetLoad st))).

(** [scaleUp] from the [await] on: [lastScaleAction], the entry of the
    history, the ['scaled'] event. *)
Definition scaleUp_resume (s : Suspended) (st : State) : State :=
  let st2 := record_action
               (mkScalingEvent scale_up (clock st) (su_instancesToAdd s)
                               (su_broadcastId s) (Some (su_targetLoad s))) st in
  emit (EmitScaled (su_instancesToAdd s)
                   (jsadd (su_currentInstances s) (su_instancesToAdd s))) st2.

(** What the event loop runs next: the handler of a ['scale-up'] message
    up to its [await], the continuation of the oldest suspended handler
    when the provider's answer arrives, or nothing while time passes. *)
Inductive Turn :=
| ScaleUpMessage (broadcastId : string) (targetLoad : jsnum)
| ProviderAnswers
| Elapse (ms : N).

Definition turn (l : State * list Suspended) (t : Turn) : State * list Suspended :=
  match t with
  | ScaleUpMessage b load =>
      let '(st1, s) := scaleUp_begin b load l.1 in
      (st1, l.2 ++ match s with Some x => [x] | None => [] end)
  | ProviderAnswers =>
      match l.2 with
      | s :: rest => (scaleUp_resume s l.1, rest)
      | [] => l
      end
  | Elapse ms => (advance (Z.of_N ms) l.1, l.2)
  end.

Definition event_loop (turns : list Turn) (st : State) : State * list Suspended :=
  fold_left turn turns (st, []).

(** ** Handlers that do not overlap *)

(** A sequence of handler invocations in which each handler has returned
    before the next one starts: a scaling request, a tick of the scaling
    timer, or time passing. *)
Inductive Call :=
| CallScaleUp (broadcastId : string) (targetLoad : jsnum)
| CallScaleDown (env : DrainEnv) (broadcastId : string)
| CallTick (metrics : Aggregated) (broadcasts : list ActiveBroadcast)
           (listenersOf : string → list Listener) (env : DrainEnv)
| Wait (ms : N).

Definition call (c : Call) (st : State) : option State :=
  match c with
  | CallScaleUp b load => Some (scaleUp b load st)
  | CallScaleDown env b => scaleDown env b st
  | CallTick m bs ls env => autoScalingTick m bs ls env st
  | Wait ms => Some (advance (Z.of_N ms) st)
  end.

Fixpoint run (calls : list Call) (st : State) : option State :=
  match calls with
  | [] => Some st
  | c :: calls' =>
      match call c st with
      | Some st1 => run calls' st1
      | None => None
      end
  end.

(** Times listed in increasing order, any two at least [gap] apart. *)
Fixpoint spaced (gap : Z) (times : list Z) : Prop :=
  match times with
  | [] => True
  | t :: times' => (∀ t', t' ∈ times' → (t + gap <= t')%Z) ∧ spaced gap times'
  end.



Definition is_termination (e : Effect) : Prop :=
  match e with
  | TerminateECSInstances _ | ScaleKubernetesDeployment _ => True
  | _ => False
  end.

(** What the scaling actions leave alone. *)
Definition same_fleet (st st' : State) : Prop :=
  config st' = config st ∧ instances st' = instances st
  ∧ relayNodes st' = relayNodes st ∧ cdnDistributions st' = cdnDistributions st
  ∧ next_handle st' = next_handle st.

(** What relay and CDN activation leave alone. *)
Definition same_schedule (st st' : State) : Prop :=
  config st' = config st ∧ scalingHistory st' = scalingHistory st
  ∧ lastScaleAction st' = lastScaleAction st ∧ clock st' = clock st.

(** The times at which scaling actions completed, oldest first. *)
Definition action_times (st : State) : list Z :=
  map ev_timestamp (scalingHistory st).

(** [lastScaleAction] is in the past and no completed action is later;
    completed actions are at least a cooldown period apart. *)
Definition cooldown_respected (st : State) : Prop :=
  (lastScaleAction st <= clock st)%Z
  ∧ (∀ t, t ∈ action_times st → (t <= lastScaleAction st)%Z)
  ∧ spaced (cooldownPeriod (scaling (config st))) (action_times st).

(** The provider has not yet issued the handles from [next_handle] on. *)
Definition handles_fresh (st : State) : Prop :=
  ∀ k, (next_handle st <= k)%nat → relayNodes st !! k = None.


(** ** Scenarios *)

Definition t0 : Z := 1700000000000.

Definition an_instance : Instance := mkInstance "10.0.0.1" "t3.medium".

(** Three instances, default configuration, no load reported. *)
Definition idle_fleet : State :=
  set_instances [("i1", an_instance); ("i2", an_instance); ("i3", an_instance)]
                (initial default_config t0).

Definition snapshot_with (listeners : Z) (ts : Z) : Snapshot :=
  mkSnapshot (Some (of_Z 10)) (Some (of_Z 10)) (Some (of_Z listeners)) None None ts.

(** Two ['scale-up'] messages for 300 listeners arrive 20 ms apart; the
    provider takes 250 ms to answer each call. *)
Definition two_requests : list Turn :=
  [ScaleUpMessage "X" (of_Z 300); Elapse 20; ScaleUpMessage "X" (of_Z 300);
   Elapse 230; ProviderAnswers; Elapse 20; ProviderAnswers].

(** The same two messages, the second arriving 20 ms after the provider
    has answered the call of the first. *)
Definition one_after_the_other : list Turn :=
  [ScaleUpMessage "X" (of_Z 300); Elapse 250; ProviderAnswers; Elapse 20;
   ScaleUpMessage "X" (of_Z 300)].

(** No snapshot is ever reported; timers fire on time. *)
Definition quiet : DrainEnv := mkDrainEnv (λ _, []) (λ _, 0).



(** One snapshot, taken at time [0], long before [t0]. *)
Definition stale_store : State :=
  set_metrics [("i1", snapshot_with 7 0)] (initial default_config t0).


(** Broadcast ["X"] has 250 listeners, 150 in ["eu"] and 100 in ["us"];
    the relay threshold is 200 and the CDN is already active. *)
Definition config_A : Config :=
  mkConfig default_scaling ["us"; "eu"] false.

Definition listeners_A : list Listener :=
  repeat ("u", Some "eu") 150 ++ repeat ("u", Some "us") 100.

Definition broadcast_A : ActiveBroadcast :=
  mkActiveBroadcast "X" 250 true false.

Definition calm : Aggregated :=
  mkAggregated 1 0 (of_Z 250) (Fin 0) (of_Z 50) (of_Z 50).

(** Listeners whose regions are names of all kinds: an inherited name,
    array indices and ordinary names. *)
Definition listeners_odd : list Listener :=
  [("u1", Some "eu"); ("u2", Some "constructor"); ("u3", Some "10");
   ("u4", Some "2"); ("u5", Some "eu"); ("u6", Some "__proto__"); ("u7", None)].

(** Three listeners of a broadcast, two of them in ["eu-west-1"]. *)
Definition listeners_X : list Listener :=
  [("u1", Some "eu-west-1"); ("u2", Some "us-east-1"); ("u3", Some "eu-west-1")].

(** ** Further definitions *)

(** [getInstanceCostPerHour(type)]: the price table, with the price of a
    [t3.medium] for a type that is not listed. *)
Definition getInstanceCostPerHour (type : string) : Q :=
  if String.eqb type "t3.micro" then 104 # 10000
  else if String.eqb type "t3.small" then 208 # 10000
  else if String.eqb type "t3.medium" then 416 # 10000
  else if String.eqb type "t3.large" then 832 # 10000
  else if String.eqb type "t3.xlarge" then 1664 # 10000
  else if String.eqb type "t3.2xlarge" then 3328 # 10000
  else 416 # 10000.

(** The snapshot [processMetrics] stores for a message received at time
    [now]. *)
Definition snapshot_of (m : MetricsMsg) (now : Z) : Snapshot :=
  mkSnapshot (msg_cpu m) (msg_memory m) (msg_listenerCount m)
             (msg_bandwidth m) (msg_errorRate m) now.

(** The instances [scaleDown] does not select: what [slice] leaves of the
    sorted entries. *)
Definition instancesKept (st : State) : list string :=
  (drop (slice_count (instancesToRemove st) (length (instances st)))
        (sort_by_load (metrics st) (instances st))).*1.

(** Entry [x] is not more loaded than entry [y]. *)
Definition lighter (m : Metrics) (x y : string * Instance) : Prop :=
  jslt (load_key m y.1) (load_key m x.1) = false.

(** A property that, when present and a number, lies between [0] and
    [bound]. *)
Definition within (bound : Q) (v : option jsnum) : Prop :=
  match v with
  | Some (Fin x) => (0 <= x <= bound)%Q
  | Some NaN | None => True
  | Some _ => False
  end.

End Orchestrator.

(* ===================================================================== *)
(** * Properties of the SFU resource manager                              *)
(* ===================================================================== *)

Module MediasoupFacts.
Import Mediasoup.

Lemma two_broadcasts_shape :
  routers two_broadcasts !! "b1" = Some (mkRouter 0 100 "b1")
  ∧ routers two_broadcasts !! "b2" = Some (mkRouter 2 101 "b2")
  ∧ transports two_broadcasts !! 1 = Some (mkTransport 1 0)
  ∧ transports two_broadcasts !! 3 = Some (mkTransport 3 2)
  ∧ producers two_broadcasts !! 4 = Some (mkProducer 4 3 2 "audio/opus").
Proof. repeat split; vm_compute; reflexivity. Qed.

(** ** Router creation *)

Lemma getNextWorker_in_range st :
  nextWorkerIndex st < length (workers st) →
  ∃ w, (getNextWorker st).1 = Some w.
Proof.
  intros Hlt. unfold getNextWorker; simpl.
  destruct (lookup_lt_is_Some_2 (workers st) (nextWorkerIndex st) Hlt) as [w Hw].
  exists w. exact Hw.
Qed.

(** C1, as stated, fails: on a handler that already has a router for
    ["b1"], [createRouter "b1"] returns a different router, and two routers
    allocated for ["b1"] are open afterwards. *)
Lemma createRouter_allocates_again :
  ∃ r1 r2 st2,
    getRouter "b1" one_router = Some r1
    ∧ createRouter "b1" one_router = Ok (r2, st2)
    ∧ r2 ≠ r1
    ∧ length (open_routers "b1" st2) = 2.
Proof.
  eexists _, _, _. split; [vm_compute; reflexivity|].
  split; [vm_compute; reflexivity|].
  split; [discriminate | vm_compute; reflexivity].
Qed.

(** C1, amended: the get-or-create step is in [createWebRtcTransport].
    When a router is registered for [broadcastId], it puts the transport
    on that router and allocates none; [createRouter] itself always has the
    next worker allocate a new router and registers it under
    [broadcastId] in place of the earlier one. *)
Theorem createWebRtcTransport_reuses_router b st r :
  getRouter b st = Some r →
  nextWorkerIndex st < length (workers st) →
  (∃ t st', createWebRtcTransport b st = Ok (t, st')
            ∧ t_router t = r_id r
            ∧ routers st' = routers st
            ∧ engine_routers st' = engine_routers st)
  ∧ (∃ router st', createRouter b st = Ok (router, st')
                   ∧ routers st' = <[b := router]> (routers st)
                   ∧ engine_routers st' = engine_routers st ++ [router]).
Proof.
  intros Hr Hw. split.
  - unfold createWebRtcTransport. rewrite Hr. eexists _, _.
    split; [reflexivity|]. simpl. auto.
  - destruct (getNextWorker_in_range st Hw) as [w Hget].
    unfold createRouter. unfold getNextWorker in *. simpl in Hget.
    rewrite Hget. eexists _, _. split; [reflexivity|]. simpl. auto.
Qed.

Lemma createWebRtcTransport_reuses_router_witness :
  ∃ t st', createWebRtcTransport "b1" one_router = Ok (t, st')
           ∧ t_router t = 0
           ∧ routers st' = routers one_router
           ∧ engine_routers st' = engine_routers one_router.
Proof.
  refine (proj1 (createWebRtcTransport_reuses_router "b1" one_router
                   (mkRouter 0 100 "b1") _ _)).
  - vm_compute; reflexivity.
  - vm_compute; lia.
Defined.

(** ** Cleaning up a broadcast *)

(** C4 on the code: cleaning up ["b1"] also closes and unregisters the
    transport and the producer of ["b2"], whose router stays registered. *)
Theorem cleanupBroadcast_closes_other_broadcast :
  let st' := cleanupBroadcast "b1" two_broadcasts in
  routers st' !! "b2" = Some (mkRouter 2 101 "b2")
  ∧ transports two_broadcasts !! 3 = Some (mkTransport 3 2)
  ∧ transports st' !! 3 = None
  ∧ producers two_broadcasts !! 4 = Some (mkProducer 4 3 2 "audio/opus")
  ∧ producers st' !! 4 = None.
Proof. repeat split; vm_compute; reflexivity. Qed.

(** Whenever the broadcast has a router, the clean-up leaves no transport
    registered at all. *)
Lemma closeTransport_transports id st :
  transports (closeTransport id st) = delete id (transports st).
Proof.
  unfold closeTransport. destruct (transports st !! id) eqn:H; simpl; [reflexivity|].
  symmetry. by apply delete_id.
Qed.

Lemma close_all_lookup ids st k :
  transports (foldl (λ s id, closeTransport id s) st ids) !! k
  = if bool_decide (k ∈ ids) then None else transports st !! k.
Proof.
  revert st. induction ids as [|id ids IH]; intros st; simpl.
  - reflexivity.
  - rewrite IH, closeTransport_transports.
    destruct (decide (k = id)) as [->|Hne].
    + rewrite lookup_delete_eq.
      rewrite (bool_decide_eq_true_2 (id ∈ id :: ids)) by set_solver.
      by case_bool_decide.
    + rewrite lookup_delete_ne by done.
      destruct (decide (k ∈ ids)).
      * rewrite !bool_decide_eq_true_2 by set_solver. reflexivity.
      * rewrite (bool_decide_eq_false_2 (k ∈ ids)) by done.
        rewrite (bool_decide_eq_false_2 (k ∈ id :: ids)); [reflexivity|].
        intros [?|?]%elem_of_cons; done.
Qed.

Lemma cleanupBroadcast_unregisters_all b st r :
  getRouter b st = Some r → transports (cleanupBroadcast b st) = ∅.
Proof.
  intros Hr. unfold cleanupBroadcast. rewrite Hr.
  set (st1 := foldl _ _ _).
  assert (transports (deleteRouter b st1) = transports st1) as ->.
  { unfold deleteRouter. by destruct (routers st1 !! b). }
  apply map_eq. intros k. rewrite lookup_empty. subst st1.
  rewrite close_all_lookup. case_bool_decide as Hk; [reflexivity|].
  destruct (transports st !! k) as [t|] eqn:Ht; [|reflexivity].
  exfalso. apply Hk. apply list_elem_of_fmap. exists (k, t).
  split; [reflexivity|]. by apply elem_of_map_to_list.
Qed.

(** ** Creating a consumer *)

Lemma find_router_Some st pid caps kr :
  List.find (λ kr, canConsume st kr.2 pid caps) (map_to_list (routers st)) = Some kr →
  routers st !! kr.1 = Some kr.2 ∧ canConsume st kr.2 pid caps = true.
Proof.
  intros H. apply find_some in H as [Hin Hc]. split; [|exact Hc].
  apply list_elem_of_In in Hin. destruct kr as [k r].
  by apply elem_of_map_to_list in Hin.
Qed.

Lemma find_router_None st pid caps b r :
  List.find (λ kr, canConsume st kr.2 pid caps) (map_to_list (routers st)) = None →
  routers st !! b = Some r → canConsume st r pid caps = false.
Proof.
  intros H Hr.
  apply (find_none _ _ H (b, r)).
  apply list_elem_of_In. by apply elem_of_map_to_list.
Qed.

(** C9: [createConsumer] throws 'Transport not found' or 'Producer not
    found' when the id is unknown, and 'Cannot consume this producer' when
    [canConsume] succeeds on no registered router.  A consumer is created
    only when [canConsume] has succeeded on a registered router that is
    the router of the referenced transport, which is also the router the
    producer is on; a producer that is on another router than the
    transport is never consumed and nothing is registered.  When the
    transport is open, its router is registered, the producer is on that
    router and the capabilities cover its codec, the consumer is created
    and registered. *)
Theorem createConsumer_outcome tid pid caps st :
  (transports st !! tid = None →
   createConsumer tid pid caps st = Throw TransportNotFound)
  ∧ (is_Some (transports st !! tid) → producers st !! pid = None →
     createConsumer tid pid caps st = Throw ProducerNotFound)
  ∧ (∀ c st', createConsumer tid pid caps st = Ok (c, st') →
       ∃ t p b r,
         transports st !! tid = Some t ∧ producers st !! pid = Some p
         ∧ routers st !! b = Some r ∧ r_id r = t_router t
         ∧ canConsume st r pid caps = true
         ∧ p_router p = t_router t
         ∧ c = mkConsumer (next_id st) tid pid
         ∧ consumers st' = <[c_id c := c]> (consumers st)
         ∧ transports st' = transports st ∧ producers st' = producers st)
  ∧ (∀ t p, transports st !! tid = Some t → producers st !! pid = Some p →
            p_router p ≠ t_router t →
            ∃ e, createConsumer tid pid caps st = Throw e)
  ∧ (∀ t p b r, transports st !! tid = Some t → producers st !! pid = Some p →
                routers st !! b = Some r → r_id r = t_router t →
                p_router p = t_router t → transport_open st t = true →
                p_codec p ∈ caps →
                ∃ st', createConsumer tid pid caps st
                       = Ok (mkConsumer (next_id st) tid pid, st'))
  ∧ (is_Some (transports st !! tid) → is_Some (producers st !! pid) →
     (∀ b r, routers st !! b = Some r → canConsume st r pid caps = false) →
     createConsumer tid pid caps st = Throw CannotConsume).
Proof.
  unfold createConsumer, createConsumer_checks.
  split; [|split; [|split; [|split; [|split]]]].
  - by intros ->.
  - intros [t ->] ->. reflexivity.
  - intros c st'.
    destruct (transports st !! tid) as [t|] eqn:Ht; [|discriminate].
    destruct (producers st !! pid) as [p|] eqn:Hp; [|discriminate].
    destruct (List.find _ _) as [[b r]|] eqn:Hf; [|discriminate].
    apply find_router_Some in Hf as [Hr Hc]. simpl in Hr, Hc.
    unfold engine_consume.
    destruct (transport_open st t); [|discriminate].
    destruct (decide (p_router p = t_router t)) as [Hsame|Hne].
    2:{ rewrite (bool_decide_eq_false_2 _ Hne). discriminate. }
    rewrite (bool_decide_eq_true_2 _ Hsame). cbn [andb].
    destruct (bool_decide (p_codec p ∈ caps)); [|discriminate].
    intros H. injection H as <- <-.
    exists t, p, b, r. repeat split; try done.
    unfold canConsume in Hc. rewrite Hp in Hc.
    apply andb_prop in Hc as [Hc _]. apply bool_decide_eq_true in Hc. congruence.
  - intros t p -> -> Hne.
    destruct (List.find _ _) as [[b r]|]; [|eauto].
    unfold engine_consume. rewrite (bool_decide_eq_false_2 _ Hne).
    rewrite andb_false_r. eauto.
  - intros t p b r -> Hp Hr Hid Hsame Hopen Hcaps. rewrite Hp.
    destruct (List.find _ _) as [[b' r']|] eqn:Hf.
    + unfold engine_consume. rewrite Hopen.
      rewrite (bool_decide_eq_true_2 _ Hsame), (bool_decide_eq_true_2 _ Hcaps).
      eauto.
    + exfalso. pose proof (find_router_None st pid caps b r Hf Hr) as Hc.
      unfold canConsume in Hc. rewrite Hp in Hc.
      rewrite bool_decide_eq_true_2 in Hc by congruence.
      by rewrite (bool_decide_eq_true_2 _ Hcaps) in Hc.
  - intros [t ->] [p ->] Hnone.
    destruct (List.find _ _) as [[b r]|] eqn:Hf; [|reflexivity].
    apply find_router_Some in Hf as [Hr Hc]. simpl in Hr, Hc.
    rewrite (Hnone b r Hr) in Hc. discriminate.
Qed.

(** In [with_listener], transport [1] is on the router of ["b1"] and
    producer [4] on the router of ["b2"]: creating a consumer on transport
    [1] throws, although [canConsume] succeeds on the router of ["b2"].  On
    transport [5] of ["b2"] the consumer is created. *)
Lemma createConsumer_outcome_witness :
  (∃ e, createConsumer 1 4 ["audio/opus"] with_listener = Throw e)
  ∧ (∃ st', createConsumer 5 4 ["audio/opus"] with_listener
            = Ok (mkConsumer 6 5 4, st')).
Proof.
  destruct (createConsumer_outcome 1 4 ["audio/opus"] with_listener)
    as (_ & _ & _ & Hother & _).
  destruct (createConsumer_outcome 5 4 ["audio/opus"] with_listener)
    as (_ & _ & _ & _ & Hsame & _).
  split.
  - apply (Hother (mkTransport 1 0) (mkProducer 4 3 2 "audio/opus"));
      [vm_compute; reflexivity | vm_compute; reflexivity | vm_compute; lia].
  - apply (Hsame (mkTransport 5 2) (mkProducer 4 3 2 "audio/opus") "b2"
                 (mkRouter 2 101 "b2")); try (vm_compute; reflexivity).
    vm_compute. set_solver.
Defined.

End MediasoupFacts.

(* ===================================================================== *)
(** * Properties of the session registry                                  *)
(* ===================================================================== *)

Module GatewayFacts.
Import Gateway.

Lemma updateListenerCount_hostId bid count bs k b :
  bs !! k = Some b →
  ∃ b', updateListenerCount bid count bs !! k = Some b' ∧ hostId b' = hostId b.
Proof.
  intros Hk. unfold updateListenerCount.
  destruct (bs !! bid) as [b0|] eqn:Hb; [|eauto].
  destruct (decide (bid = k)) as [->|Hne].
  - rewrite lookup_insert_eq. eexists; split; [reflexivity|]. simpl. congruence.
  - rewrite lookup_insert_ne by done. eauto.
Qed.

Lemma host_invariant_update bid count bs ss pres act pres' act' :
  host_sessions_belong_to_host (mkState bs ss act pres) →
  host_sessions_belong_to_host
    (mkState (updateListenerCount bid count bs) ss act' pres').
Proof.
  intros Hinv s Hs Hrole. simpl in *.
  destruct (Hinv s Hs Hrole) as [b [Hb Hhost]]. simpl in Hb.
  destruct (updateListenerCount_hostId bid count bs _ b Hb) as [b' [Hb' Hh]].
  exists b'. split; [exact Hb' | congruence].
Qed.

(** C5, as stated, fails: the host joins broadcast ["X"] on a second
    socket while the first session is connected; the join is confirmed
    with role [host] and the broadcast then has two connected host-role
    sessions. *)
Lemma second_host_join_accepted :
  let st1 := (handleJoin alice_1 "X" live_X).1 in
  length (hostSessions "X" st1) = 1
  ∧ (handleJoin alice_2 "X" st1).2
    = [EvUserJoined "alice" host 2; EvJoined 1 "X" host 2]
  ∧ length (hostSessions "X" (handleJoin alice_2 "X" st1).1) = 2.
Proof. repeat split; vm_compute; reflexivity. Qed.

(** C5, amended: a join to a broadcast that exists and has not ended is
    never rejected; it creates a connected session whose role is [host]
    iff the joining user is the broadcast's [hostId], and [listener]
    otherwise.  Hence every host-role session of a broadcast belongs to
    the broadcast's host user. *)
Theorem handleJoin_role socket bid st b :
  broadcasts st !! bid = Some b →
  status b ≠ ended →
  ∃ role count,
    (role = host ↔ user_id socket = hostId b)
    ∧ (role = listener ↔ user_id socket ≠ hostId b)
    ∧ (handleJoin socket bid st).2
      = [EvUserJoined (user_id socket) role count;
         EvJoined (length (sessions st)) bid role count]
    ∧ sessions (handleJoin socket bid st).1
      = sessions st ++ [mkSession (length (sessions st)) bid (user_id socket) role
                                  (socket_id socket) connected]
    ∧ (host_sessions_belong_to_host st →
       host_sessions_belong_to_host (handleJoin socket bid st).1).
Proof.
  intros Hb Hst. unfold handleJoin. rewrite Hb.
  destruct (decide (status b = ended)) as [|_]; [done|].
  eexists _, _. split; [|split; [|split; [reflexivity|split; [reflexivity|]]]].
  - case_bool_decide; split; intros; done.
  - case_bool_decide; split; intros; done.
  - intros Hinv. simpl.
    assert (host_sessions_belong_to_host
              (mkState (broadcasts st)
                 (sessions st ++
                    [mkSession (length (sessions st)) bid (user_id socket)
                       (if bool_decide (hostId b = user_id socket) then host else listener)
                       (socket_id socket) connected])
                 (activeSessions st) (presence st))) as Hinv'.
    { intros s Hs Hrole. simpl in Hs.
      apply elem_of_app in Hs as [Hs|Hs].
      - apply Hinv; done.
      - apply list_elem_of_singleton in Hs as ->. simpl in *.
        exists b. split; [exact Hb|]. by case_bool_decide. }
    eapply host_invariant_update. exact Hinv'.
Qed.

Lemma handleJoin_role_witness :
  ∃ role count,
    (role = host ↔ "alice" = "alice")
    ∧ (role = listener ↔ "alice" ≠ "alice")
    ∧ (handleJoin alice_1 "X" live_X).2
      = [EvUserJoined "alice" role count; EvJoined 0 "X" role count]
    ∧ sessions (handleJoin alice_1 "X" live_X).1
      = [] ++ [mkSession 0 "X" "alice" role "socket-1" connected]
    ∧ (host_sessions_belong_to_host live_X →
       host_sessions_belong_to_host (handleJoin alice_1 "X" live_X).1).
Proof.
  apply (handleJoin_role alice_1 "X" live_X (mkBroadcast "alice" live 0 0)).
  - vm_compute; reflexivity.
  - simpl; discriminate.
Defined.

End GatewayFacts.

(* ===================================================================== *)
(** * Properties of the capacity controller                               *)
(* ===================================================================== *)

Module OrchestratorFacts.
Import JsNum Orchestrator.

(** ** Arithmetic on JavaScript numbers *)



Lemma count_nonzero n : (0 < n)%nat → Qeq_bool (inject_Z (Z.of_nat n)) 0 = false.
Proof.
  intros Hn. destruct (Qeq_bool _ _) eqn:E; [|reflexivity].
  apply Qeq_bool_iff in E. unfold Qeq in E. simpl in E. lia.
Qed.


(** ** The aggregation tick *)

Lemma sum_field_snoc f (m : Metrics) kv :
  sum_field f (m ++ [kv]) = jsadd (sum_field f m) (or0 (f kv.2)).
Proof. unfold sum_field. by rewrite fold_left_app. Qed.






(** A snapshot taken at time [0] is still counted at time [t0], whatever
    staleness window shorter than [t0] is chosen; the aggregate restricted
    to fresh snapshots would report no listener. *)
Lemma stale_snapshot_any_window window :
  (window < t0)%Z →
  totalListeners (aggregate stale_store) = Fin (inject_Z 7)
  ∧ totalListeners (aggregate_fresh window stale_store) = Fin 0
  ∧ aggregate stale_store ≠ aggregate_fresh window stale_store.
Proof.
  intros Hw.
  assert (aggregate_fresh window stale_store
          = aggregate (set_metrics [] stale_store)) as ->.
  { unfold aggregate_fresh. f_equal. unfold stale_store at 2. simpl.
    unfold fresh. simpl.
    destruct (Z.leb_spec (t0 - 0) window) as [H|H]; [lia | reflexivity]. }
  split; [vm_compute; reflexivity|]. split; [vm_compute; reflexivity|].
  intros Heq. apply (f_equal totalListeners) in Heq. vm_compute in Heq.
  discriminate.
Qed.

(** C6, as stated, fails: with a staleness window of one minute, the
    snapshot of ["i1"], taken at time [0], is long stale at time [t0]; the
    tick still counts its seven listeners, where the aggregate over fresh
    snapshots has none. *)
Lemma stale_snapshot_is_counted :
  totalListeners (aggregate stale_store) = Fin (inject_Z 7)
  ∧ totalListeners (aggregate_fresh 60000 stale_store) = Fin 0
  ∧ aggregate stale_store ≠ aggregate_fresh 60000 stale_store.
Proof. apply stale_snapshot_any_window. reflexivity. Qed.

Lemma fold_sum_retime f ts (m : Metrics) acc :
  (∀ s t, f (mkSnapshot (cpu s) (memory s) (listenerCount s) (bandwidth s)
                        (errorRate s) t) = f s) →
  fold_left (λ acc kv, jsadd acc (or0 (f kv.2))) (retime ts m) acc
  = fold_left (λ acc kv, jsadd acc (or0 (f kv.2))) m acc.
Proof.
  intros Hf. revert acc. induction m as [|kv m IH]; intros acc; simpl; [reflexivity|].
  rewrite Hf. apply IH.
Qed.

Lemma processMetrics_stores id m st :
  map_get id (metrics (processMetrics id m st)) = Some (snapshot_of m (clock st)).
Proof.
  assert (∀ (l : Metrics) v, map_get id (map_set id v l) = Some v) as Hset.
  { intros l v. induction l as [|[k x] l IH]; cbn [map_set map_get].
    - by rewrite String.eqb_refl.
    - destruct (String.eqb k id) eqn:E; cbn [map_get].
      + by rewrite String.eqb_refl.
      + by rewrite E. }
  unfold processMetrics.
  destruct (_ || _); destruct (prop_gt (msg_errorRate m) _); simpl; apply Hset.
Qed.

(** C6, amended: the tick recomputes the aggregate from every snapshot
    stored in [this.metrics], whatever its timestamp.  [processMetrics]
    stores each report under its instance id, in place of the earlier
    report of that instance, with the time of arrival.  With an empty store
    the sums and averages are [0]; a snapshot stored on top of the others
    adds its listener count and bandwidth to the totals and its CPU and
    memory to the sums that are divided by the number of stored
    snapshots, however old it is: these equations determine the
    aggregate of every store.  Changing the timestamps of the stored
    snapshots changes nothing in the aggregate, and when every stored
    snapshot is fresh the aggregate is the one the staleness rule
    describes. *)
Theorem aggregate_counts_every_snapshot st ts window :
  (totalListeners (aggregate (set_metrics [] st)) = Fin 0
   ∧ totalBandwidth (aggregate (set_metrics [] st)) = Fin 0
   ∧ averageCPU (aggregate (set_metrics [] st)) = Fin 0
   ∧ averageMemory (aggregate (set_metrics [] st)) = Fin 0)
  ∧ (∀ id s,
       let st' := set_metrics (metrics st ++ [(id, s)]) st in
       let count := of_Z (Z.of_nat (S (length (metrics st)))) in
       totalListeners (aggregate st')
       = jsadd (totalListeners (aggregate st)) (or0 (listenerCount s))
       ∧ totalBandwidth (aggregate st')
         = jsadd (totalBandwidth (aggregate st)) (or0 (bandwidth s))
       ∧ averageCPU (aggregate st')
         = jsdiv (jsadd (sum_field cpu (metrics st)) (or0 (cpu s))) count
       ∧ averageMemory (aggregate st')
         = jsdiv (jsadd (sum_field memory (metrics st)) (or0 (memory s))) count
       ∧ totalInstances (aggregate st') = totalInstances (aggregate st)
       ∧ totalRelays (aggregate st') = totalRelays (aggregate st))
  ∧ aggregate (set_metrics (retime ts (metrics st)) st) = aggregate st
  ∧ (forallb (fresh window (clock st)) (metrics st) = true →
     aggregate_fresh window st = aggregate st)
  ∧ (∀ id m, map_get id (metrics (processMetrics id m st))
             = Some (snapshot_of m (clock st))).
Proof.
  split; [repeat split|]. split; [|split; [|split; [|intros id m; apply processMetrics_stores]]].
  - intros id s st' count. subst st' count. unfold aggregate. cbn [metrics set_metrics
      totalListeners totalBandwidth averageCPU averageMemory totalInstances
      totalRelays instances relayNodes].
    rewrite !sum_field_snoc. cbn [snd].
    rewrite length_app. cbn [length].
    replace (length (metrics st) + 1)%nat with (S (length (metrics st))) by lia.
    cbn [Nat.ltb Nat.leb]. repeat split.
  - unfold aggregate, sum_field; simpl.
    rewrite !fold_sum_retime by (intros; done).
    unfold retime. rewrite length_map. reflexivity.
  - intros Hall. unfold aggregate_fresh.
    assert (List.filter (fresh window (clock st)) (metrics st) = metrics st) as ->.
    { induction (metrics st) as [|kv m IH]; simpl in *; [reflexivity|].
      apply andb_prop in Hall as [-> Hm]. f_equal. apply IH, Hm. }
    by destruct st.
Qed.

(** The stale snapshot of ["i1"] counts its seven listeners; a second
    snapshot, as old, adds its own five. *)
Lemma aggregate_counts_every_snapshot_witness :
  totalListeners (aggregate stale_store) = Fin (inject_Z 7)
  ∧ totalListeners
      (aggregate (set_metrics (metrics stale_store ++ [("i2", snapshot_with 5 0)])
                              stale_store))
    = jsadd (Fin (inject_Z 7)) (Fin (inject_Z 5))
  ∧ aggregate_fresh t0 stale_store = aggregate stale_store.
Proof.
  destruct (aggregate_counts_every_snapshot stale_store (λ _, t0) t0)
    as (_ & Hsnoc & _ & Hfresh & _).
  split; [vm_compute; reflexivity|]. split.
  - destruct (Hsnoc "i2" (snapshot_with 5 0)) as [H _].
    etransitivity; [exact H|]. vm_compute. reflexivity.
  - apply Hfresh. vm_compute. reflexivity.
Defined.

(** ** The polling loop of [drainInstances] *)

Lemma same_fleet_trans a b c : same_fleet a b → same_fleet b c → same_fleet a c.
Proof. unfold same_fleet. intuition congruence. Qed.


Lemma drain_loop_returns fuel k start env ids st :
  (1 <= fuel)%nat →
  (maxDrainTime - (clock st - start) <= pollInterval * (Z.of_nat fuel - 1))%Z →
  ∃ st', drain_loop fuel k start env ids st = Some st'.
Proof.
  revert k st. induction fuel as [|fuel IH]; intros k st Hpos Hrem; [lia|].
  simpl. destruct (Z.ltb_spec (clock st - start) maxDrainTime) as [Hlt|Hge]; [|eauto].
  destruct (allDrained ids (metrics_at env k)); [eauto|].
  apply IH; simpl; unfold pollInterval, maxDrainTime in *; lia.
Qed.

Lemma drain_loop_frame fuel k start env ids st st' :
  drain_loop fuel k start env ids st = Some st' →
  same_fleet st st'
  ∧ scalingHistory st' = scalingHistory st
  ∧ lastScaleAction st' = lastScaleAction st
  ∧ (clock st <= clock st')%Z
  ∧ ∃ outcome, log st' = log st ++ [DrainReturned outcome].
Proof.
  revert k st. induction fuel as [|fuel IH]; intros k st H; [discriminate|].
  simpl in H. destruct (clock st - start <? maxDrainTime)%Z.
  - destruct (allDrained ids (metrics_at env k)).
    + injection H as <-. simpl. repeat split; [lia|eauto].
    + apply IH in H as (Hc & Hh & Hla & Ht & o & Hl). simpl in *.
      split; [exact Hc|]. split; [exact Hh|]. split; [exact Hla|].
      split; [unfold pollInterval in Ht; lia | eauto].
  - injection H as <-. simpl. repeat split; [lia|eauto].
Qed.



Lemma mark_draining_frame ids st :
  let st1 := fold_left (λ s id, emit (MarkDraining id) s) ids st in
  same_fleet st st1
  ∧ scalingHistory st1 = scalingHistory st
  ∧ lastScaleAction st1 = lastScaleAction st
  ∧ clock st1 = clock st
  ∧ log st1 = log st ++ map MarkDraining ids.
Proof.
  revert st. induction ids as [|id ids IH]; intros st; simpl.
  - rewrite app_nil_r. repeat split.
  - destruct (IH (emit (MarkDraining id) st)) as (Hc & Hh & Hla & Ht & Hl).
    split; [exact Hc|]. split; [exact Hh|]. split; [exact Hla|]. split; [exact Ht|].
    rewrite Hl. simpl. by rewrite <- app_assoc.
Qed.

(** [drainInstances] always returns. *)
Lemma drainInstances_returns env ids st :
  ∃ st', drainInstances env ids st = Some st'.
Proof.
  unfold drainInstances. apply drain_loop_returns; [lia|].
  unfold maxDrainTime, pollInterval. lia.
Qed.

Lemma drainInstances_frame env ids st st' :
  drainInstances env ids st = Some st' →
  same_fleet st st'
  ∧ scalingHistory st' = scalingHistory st
  ∧ lastScaleAction st' = lastScaleAction st
  ∧ (clock st <= clock st')%Z
  ∧ ∃ outcome, log st' = log st ++ map MarkDraining ids ++ [DrainReturned outcome].
Proof.
  unfold drainInstances. intros H.
  destruct (mark_draining_frame ids st) as (Hc & Hh & Hla & Ht & Hl).
  apply drain_loop_frame in H as (Hc' & Hh' & Hla' & Ht' & o & Hl').
  split; [eapply same_fleet_trans; eauto|].
  split; [congruence|]. split; [congruence|]. split; [lia|].
  exists o. rewrite Hl', Hl. by rewrite <- app_assoc.
Qed.







(** ** The two scaling actions *)

(** [scaleDown] either leaves the state alone or drains its victims and
    then terminates them, records the action and restarts the cooldown. *)
Lemma scaleDown_cases env b st :
  ∃ st2, scaleDown env b st = Some st2
    ∧ (st2 = st
       ∨ ((cooldownPeriod (scaling (config st)) <= clock st - lastScaleAction st)%Z
          ∧ jsle (instancesToRemove st) (Fin 0) = false
          ∧ same_fleet st st2
          ∧ (clock st <= clock st2)%Z
          ∧ lastScaleAction st2 = clock st2
          ∧ action_times st2 = action_times st ++ [clock st2]
          ∧ ∃ outcome e,
              is_termination e
              ∧ log st2 = log st ++ map MarkDraining (instancesToTerminate st)
                                 ++ [DrainReturned outcome; e])).
Proof.
  unfold scaleDown.
  destruct (Z.ltb_spec (clock st - lastScaleAction st)
                       (cooldownPeriod (scaling (config st)))) as [Hcd|Hcd]; [eauto|].
  destruct (jsle (instancesToRemove st) (Fin 0)) eqn:Hle; [eauto|].
  destruct (drainInstances_returns env (instancesToTerminate st) st) as [st1 Hd].
  rewrite Hd. eexists. split; [reflexivity|]. right.
  apply drainInstances_frame in Hd as (Hc & Hh & Hla & Ht & o & Hl).
  split; [exact Hcd|]. split; [reflexivity|].
  split; [exact Hc|]. split; [exact Ht|]. split; [reflexivity|].
  split.
  { unfold action_times. simpl. rewrite Hh. by rewrite map_app. }
  destruct (useKubernetes (config st)); eexists o, _; simpl;
    (split; [|rewrite Hl, <- !app_assoc; reflexivity]); exact I.
Qed.

(** [scaleUp] either leaves the state alone or launches instances,
    records the action and restarts the cooldown. *)
Lemma scaleUp_cases b load st :
  scaleUp b load st = st
  ∨ ((cooldownPeriod (scaling (config st)) <= clock st - lastScaleAction st)%Z
     ∧ jsle (instancesToAdd load st) (Fin 0) = false
     ∧ same_fleet st (scaleUp b load st)
     ∧ clock (scaleUp b load st) = clock st
     ∧ lastScaleAction (scaleUp b load st) = clock st
     ∧ action_times (scaleUp b load st) = action_times st ++ [clock st]).
Proof.
  unfold scaleUp.
  destruct (Z.ltb_spec (clock st - lastScaleAction st)
                       (cooldownPeriod (scaling (config st)))) as [Hcd|Hcd]; [by left|].
  destruct (jsle (instancesToAdd load st) (Fin 0)) eqn:Hle; [by left|].
  right. split; [exact Hcd|]. split; [reflexivity|].
  split; [repeat split|]. split; [reflexivity|]. split; [reflexivity|].
  unfold action_times. simpl. by rewrite map_app.
Qed.




Lemma Qle_bool_false x y : Qle_bool x y = false → (y < x)%Q.
Proof.
  intros H. apply Qnot_le_lt. intros Hle. apply Qle_bool_iff in Hle. congruence.
Qed.

(** Scale-up stays within [maxInstances]: the total announced by the
    ['scaled'] event is at most [maxInstances] whenever the number of
    instances to add is a number. *)
Lemma scaleUp_within_max load st :
  instancesToAdd load st ≠ NaN →
  jsle (instancesToAdd load st) (Fin 0) = false →
  jsle (jsadd (of_Z (Z.of_nat (length (instances st)))) (instancesToAdd load st))
       (of_Z (maxInstances (scaling (config st)))) = true.
Proof.
  unfold instancesToAdd.
  set (cur := inject_Z (Z.of_nat (length (instances st)))).
  set (mx := inject_Z (maxInstances (scaling (config st)))).
  set (needed := jsceil _).
  unfold of_Z. fold cur. fold mx.
  assert (Qle_bool (cur + (mx + - cur)) mx = true) as Hmax.
  { apply Qle_bool_iff. lra. }
  destruct needed as [n| | |]; simpl; intros Hnan Hpos; try done.
  destruct (Qle_bool (n + - cur) (mx + - cur)) eqn:Hle; simpl; [|exact Hmax].
  apply Qle_bool_iff. apply Qle_bool_iff in Hle. lra.
Qed.

(** Scale-down removes at least [current - minInstances] instances
    whenever the number of instances to remove is a number. *)
Lemma instancesToRemove_at_least st :
  instancesToRemove st ≠ NaN →
  jsle (jssub (of_Z (Z.of_nat (length (instances st))))
              (of_Z (minInstances (scaling (config st)))))
       (instancesToRemove st) = true.
Proof.
  unfold instancesToRemove.
  set (a := jssub _ (jsceil _)). set (b := jssub _ (of_Z (minInstances _))).
  assert (∃ q, b = Fin q) as [q Hb] by (eexists; reflexivity).
  rewrite Hb. clear Hb.
  assert (Qle_bool q q = true) as Hrefl by (apply Qle_bool_iff, Qle_refl).
  destruct a as [x| | |]; simpl; intros Hnan; try done.
  destruct (Qle_bool x q) eqn:Hle; simpl; [exact Hrefl|].
  apply Qle_bool_iff, Qlt_le_weak, Qle_bool_false, Hle.
Qed.

(** C2 on the code: with the default configuration ([minInstances = 1])
    and three instances that report no load, [scaleDown] decides to remove
    three instances, drains and terminates all three: none remains. *)
Theorem scaleDown_below_minimum :
  minInstances (scaling (config idle_fleet)) = 1%Z
  ∧ length (instances idle_fleet) = 3%nat
  ∧ instancesToRemove idle_fleet = of_Z 3
  ∧ instancesToTerminate idle_fleet = ["i1"; "i2"; "i3"]
  ∧ option_map log (scaleDown quiet "auto" idle_fleet)
    = Some [MarkDraining "i1"; MarkDraining "i2"; MarkDraining "i3";
            DrainReturned Drained; TerminateECSInstances ["i1"; "i2"; "i3"]].
Proof. repeat split; vm_compute; reflexivity. Qed.

(** ** Relay and CDN activation *)

Lemma activateCDN_schedule b st :
  same_schedule st (activateCDN b st)
  ∧ relayNodes (activateCDN b st) = relayNodes st.
Proof.
  unfold activateCDN. destruct (cdnDistributions st !! b); simpl; repeat split.
Qed.

Lemma addRelayNode_schedule b load ls st :
  same_schedule st (addRelayNode b load ls st).2.
Proof. repeat split. Qed.

Lemma same_schedule_trans a b c :
  same_schedule a b → same_schedule b c → same_schedule a c.
Proof. unfold same_schedule. intuition congruence. Qed.

Lemma activateFor_schedule sc ls st broadcast :
  same_schedule st (activateFor sc ls st broadcast).
Proof.
  unfold activateFor.
  destruct (_ && _); destruct (_ && _);
    repeat first [ apply addRelayNode_schedule
                 | apply (proj1 (activateCDN_schedule _ _))
                 | eapply same_schedule_trans; [apply (proj1 (activateCDN_schedule _ _))|]
                 | repeat split ].
Qed.

Lemma activate_all_schedule sc ls broadcasts st :
  same_schedule st (fold_left (activateFor sc ls) broadcasts st).
Proof.
  revert st. induction broadcasts as [|b bs IH]; intros st; simpl; [repeat split|].
  eapply same_schedule_trans; [apply activateFor_schedule | apply IH].
Qed.






(** 250 listeners, 60% of them in ["eu"], threshold 200: one tick
    provisions exactly one relay, in ["eu"]. *)
Example one_relay_in_eu :
  option_map (λ st, map_to_list (relayNodes st))
             (autoScalingTick calm [broadcast_A] (λ _, listeners_A) quiet
                              (initial config_A t0))
  = Some [(0%nat, mkRelayNode "X" (Some "eu") t0 (Fin 0))].
Proof. vm_compute. reflexivity. Qed.


(** ** The cooldown *)

Lemma spaced_snoc gap times t :
  spaced gap times → (∀ t', t' ∈ times → (t' + gap <= t)%Z) →
  spaced gap (times ++ [t]).
Proof.
  induction times as [|t1 times IH]; simpl; intros Hs Hall.
  - split; [|exact I]. intros t' Hin. by apply elem_of_nil in Hin.
  - destruct Hs as [Hfirst Hrest]. split.
    + intros t' Hin. apply elem_of_app in Hin as [Hin|Hin]; [by apply Hfirst|].
      apply list_elem_of_singleton in Hin as ->. apply Hall. by left.
    + apply IH; [exact Hrest|]. intros t' Hin. apply Hall. by right.
Qed.

(** A handler that leaves the schedule alone, lets time pass, or completes
    one action after a successful cooldown check keeps the invariant. *)
Lemma cooldown_respected_step st st' :
  config st' = config st →
  (clock st <= clock st')%Z →
  (lastScaleAction st' = lastScaleAction st ∧ action_times st' = action_times st)
  ∨ ((cooldownPeriod (scaling (config st)) <= clock st - lastScaleAction st)%Z
     ∧ lastScaleAction st' = clock st'
     ∧ action_times st' = action_times st ++ [clock st']) →
  cooldown_respected st → cooldown_respected st'.
Proof.
  intros Hcfg Hclock Hcases (Hpast & Hmax & Hsp). unfold cooldown_respected.
  rewrite Hcfg. destruct Hcases as [[-> ->]|(Hcd & -> & ->)].
  - split; [lia|]. split; [exact Hmax | exact Hsp].
  - split; [lia|]. split.
    + intros t Hin. apply elem_of_app in Hin as [Hin|Hin].
      * specialize (Hmax t Hin). lia.
      * apply list_elem_of_singleton in Hin as ->. lia.
    + apply spaced_snoc; [exact Hsp|]. intros t Hin. specialize (Hmax t Hin). lia.
Qed.

Lemma same_schedule_respected st st' :
  same_schedule st st' → cooldown_respected st → cooldown_respected st'.
Proof.
  intros (Hc & Hh & Hl & Ht). apply cooldown_respected_step; [exact Hc|lia|].
  left. split; [exact Hl|]. unfold action_times. by rewrite Hh.
Qed.

Lemma scaleUp_respected b load st :
  config (scaleUp b load st) = config st
  ∧ (cooldown_respected st → cooldown_respected (scaleUp b load st)).
Proof.
  destruct (scaleUp_cases b load st) as [->|(Hcd & _ & Hf & Ht & Hl & Ha)]; [by split|].
  split; [apply Hf|]. apply cooldown_respected_step; [apply Hf|lia|].
  right. rewrite Ht. by repeat split.
Qed.

Lemma scaleDown_respected env b st :
  ∃ st', scaleDown env b st = Some st'
         ∧ config st' = config st
         ∧ (cooldown_respected st → cooldown_respected st').
Proof.
  destruct (scaleDown_cases env b st) as (st' & Hs & Hcases).
  exists st'. split; [exact Hs|].
  destruct Hcases as [->|(Hcd & _ & Hf & Ht & Hl & Ha & _)].
  - by split.
  - split; [apply Hf|].
    apply cooldown_respected_step; [apply Hf|lia|]. right. by repeat split.
Qed.

Lemma call_respected c st :
  ∃ st', call c st = Some st'
         ∧ config st' = config st
         ∧ (cooldown_respected st → cooldown_respected st').
Proof.
  destruct c as [b load|env b|m bs ls env|ms]; simpl.
  - eexists. split; [reflexivity|]. apply scaleUp_respected.
  - apply scaleDown_respected.
  - unfold autoScalingTick.
    set (sc := scaling (config st)).
    assert (∃ st1, (if jslt (Fin (targetCPU sc)) (averageCPU m)
                       || jslt (Fin (targetMemory sc)) (averageMemory m)
                    then Some (scaleUp "auto" (jsmul (totalListeners m) (Fin (3 # 2))) st)
                    else if jslt (averageCPU m) (Fin (scaleDownThreshold sc))
                            && jslt (averageMemory m) (Fin (scaleDownThreshold sc))
                         then scaleDown env "auto" st
                         else Some st) = Some st1
                   ∧ config st1 = config st
                   ∧ (cooldown_respected st → cooldown_respected st1))
      as (st1 & -> & Hc & Hr).
    { destruct (_ || _).
      - eexists. split; [reflexivity|]. apply scaleUp_respected.
      - destruct (_ && _); [apply scaleDown_respected|]. exists st. auto. }
    eexists. split; [reflexivity|].
    pose proof (activate_all_schedule sc ls bs st1) as Hsched.
    split; [destruct Hsched as [-> _]; exact Hc|].
    intros Hinv. eapply same_schedule_respected; [exact Hsched|]. by apply Hr.
  - eexists. split; [reflexivity|]. split; [reflexivity|].
    apply cooldown_respected_step; simpl; [reflexivity|lia|]. by left.
Qed.

Lemma run_respected calls st :
  ∃ st', run calls st = Some st'
         ∧ config st' = config st
         ∧ (cooldown_respected st → cooldown_respected st').
Proof.
  revert st. induction calls as [|c calls IH]; intros st; simpl.
  - exists st. auto.
  - destruct (call_respected c st) as (st1 & -> & Hc1 & Hr1).
    destruct (IH st1) as (st' & Hrun & Hc & Hr).
    exists st'. split; [exact Hrun|]. split; [congruence|]. auto.
Qed.

(** Inside the cooldown window [scaleUp] and [scaleDown] return without
    touching the state, and both read and write the same
    [lastScaleAction].  For handlers that do not overlap (each returns
    before the next starts), starting with an empty history and
    [lastScaleAction] in the past, the scaling actions that complete are
    at least [cooldownPeriod] apart. *)
Lemma cooldown_without_overlap st :
  (∀ b load env,
     (clock st - lastScaleAction st < cooldownPeriod (scaling (config st)))%Z →
     scaleUp b load st = st ∧ scaleDown env b st = Some st
     ∧ scaleUp_begin b load st = (st, None))
  ∧ (∀ calls,
       scalingHistory st = [] →
       (lastScaleAction st <= clock st)%Z →
       ∃ st', run calls st = Some st'
              ∧ spaced (cooldownPeriod (scaling (config st))) (action_times st')).
Proof.
  split.
  - intros b load env Hcd. unfold scaleUp, scaleDown, scaleUp_begin.
    destruct (Z.ltb_spec (clock st - lastScaleAction st)
                         (cooldownPeriod (scaling (config st)))); [by repeat split|lia].
  - intros calls Hh Hpast.
    destruct (run_respected calls st) as (st' & Hrun & Hc & Hr).
    exists st'. split; [exact Hrun|]. rewrite <- Hc. apply Hr.
    unfold cooldown_respected, action_times. rewrite Hh. simpl.
    split; [exact Hpast|]. split; [|exact I].
    intros t Hin. by apply elem_of_nil in Hin.
Qed.

(** A handler that is resumed before any other runs is [scaleUp] as a
    whole. *)
Lemma scaleUp_in_one_turn b load st :
  scaleUp b load st
  = match scaleUp_begin b load st with
    | (st1, Some s) => scaleUp_resume s st1
    | (st1, None) => st1
    end.
Proof.
  unfold scaleUp, scaleUp_begin.
  destruct (clock st - lastScaleAction st <? _)%Z; [reflexivity|].
  destruct (jsle (instancesToAdd load st) (Fin 0)); reflexivity.
Qed.

(** C3 on the code: the cooldown is tested before the [await] of the
    provider call and [lastScaleAction] is written after it.  Two
    ['scale-up'] messages that arrive 20 ms apart, while the provider
    takes 250 ms to answer, both pass the test: the provider is asked
    twice for three instances and two scaling actions complete 20 ms
    apart, inside one cooldown window of five minutes.  When the second
    message arrives after the first handler has returned, it is
    suppressed: one call to the provider, one action. *)
Theorem overlapping_scaleUps_both_act :
  let st' := (event_loop two_requests idle_fleet).1 in
  cooldownPeriod (scaling (config idle_fleet)) = 300000%Z
  ∧ (event_loop two_requests idle_fleet).2 = []
  ∧ log st' = [ScaleECSService (of_Z 3); ScaleECSService (of_Z 3);
               EmitScaled (of_Z 3) (of_Z 6); EmitScaled (of_Z 3) (of_Z 6)]
  ∧ action_times st' = [(t0 + 250)%Z; (t0 + 270)%Z]
  ∧ ¬ spaced (cooldownPeriod (scaling (config st'))) (action_times st')
  ∧ (event_loop one_after_the_other idle_fleet).2 = []
  ∧ log (event_loop one_after_the_other idle_fleet).1
    = [ScaleECSService (of_Z 3); EmitScaled (of_Z 3) (of_Z 6)]
  ∧ action_times (event_loop one_after_the_other idle_fleet).1 = [(t0 + 250)%Z].
Proof.
  cbv zeta.
  split; [reflexivity|]. split; [vm_compute; reflexivity|].
  split; [vm_compute; reflexivity|].
  assert (action_times (event_loop two_requests idle_fleet).1
          = [(t0 + 250)%Z; (t0 + 270)%Z]) as Htimes by (vm_compute; reflexivity).
  split; [exact Htimes|]. split; [|repeat split; vm_compute; reflexivity].
  rewrite Htimes. intros [Hgap _].
  specialize (Hgap (t0 + 270)%Z ltac:(by apply list_elem_of_singleton)).
  change (cooldownPeriod _) with 300000%Z in Hgap. lia.
Qed.

End OrchestratorFacts.

(* ===================================================================== *)
(** * Further properties of the SFU resource manager                      *)
(* ===================================================================== *)

Module MediasoupExtra.
Import Mediasoup.

(** ** Worker selection *)

Lemma nextWorkers_spec k : ∀ st,
  nextWorkerIndex st < length (workers st) →
  (nextWorkers k st).1
  = map (λ j, workers st !! ((nextWorkerIndex st + j) `mod` length (workers st)))
        (seq 0 k)
  ∧ nextWorkerIndex (nextWorkers k st).2
    = (nextWorkerIndex st + k) `mod` length (workers st)
  ∧ workers (nextWorkers k st).2 = workers st
  ∧ routers (nextWorkers k st).2 = routers st.
Proof.
  induction k as [|k IH]; intros st Hi.
  - simpl. rewrite Nat.add_0_r, Nat.mod_small by exact Hi. auto.
  - cbn [nextWorkers]. unfold getNextWorker.
    set (st1 := mkState _ _ _ _ _ _ _ _).
    assert (length (workers st) ≠ 0) as Hn by lia.
    assert (nextWorkerIndex st1 < length (workers st1)) as Hi1.
    { subst st1; simpl. by apply Nat.mod_upper_bound. }
    destruct (IH st1 Hi1) as (Hl & Hidx & Hw & Hr).
    destruct (nextWorkers k st1) as [ws st2]. simpl in *.
    split; [|split; [|split; [exact Hw | exact Hr]]].
    + f_equal.
      * by rewrite Nat.add_0_r, Nat.mod_small.
      * rewrite Hl, <- seq_shift, map_map. apply map_ext. intros j.
        f_equal. rewrite Nat.Div0.add_mod_idemp_l. f_equal. lia.
    + rewrite Hidx, Nat.Div0.add_mod_idemp_l. f_equal. lia.
Qed.

Lemma rotation_lookup {A} (l : list A) i j :
  i < length l → j < length l →
  (drop i l ++ take i l) !! j = l !! ((i + j) `mod` length l).
Proof.
  intros Hi Hj. destruct (decide (i + j < length l)) as [Hlt|Hge].
  - rewrite Nat.mod_small by exact Hlt.
    rewrite lookup_app_l by (rewrite length_drop; lia).
    by rewrite lookup_drop.
  - assert ((i + j) `mod` length l = i + j - length l) as ->.
    { symmetry. apply (Nat.mod_unique _ _ 1); lia. }
    rewrite lookup_app_r by (rewrite length_drop; lia).
    rewrite length_drop. rewrite lookup_take_lt by lia. f_equal. lia.
Qed.

(** X1: worker selection is round-robin over the pool.  As many
    successive calls of [getNextWorker] as there are workers hand out
    every worker exactly once, in pool order starting at the current
    index, and bring [nextWorkerIndex] back to where it was. *)
Theorem getNextWorker_round_robin st :
  nextWorkerIndex st < length (workers st) →
  (nextWorkers (length (workers st)) st).1
  = map Some (drop (nextWorkerIndex st) (workers st)
              ++ take (nextWorkerIndex st) (workers st))
  ∧ nextWorkerIndex (nextWorkers (length (workers st)) st).2 = nextWorkerIndex st.
Proof.
  intros Hi.
  destruct (nextWorkers_spec (length (workers st)) st Hi) as (Hl & Hidx & _).
  split.
  - rewrite Hl. apply list_eq. intros j.
    rewrite !list_lookup_fmap.
    destruct (decide (j < length (workers st))) as [Hj|Hj].
    + rewrite lookup_seq_lt by exact Hj. simpl.
      rewrite rotation_lookup by assumption.
      destruct (lookup_lt_is_Some_2 (workers st)
                  ((nextWorkerIndex st + j) `mod` length (workers st))) as [w Hw].
      { apply Nat.mod_upper_bound. lia. }
      by rewrite Hw.
    + rewrite lookup_seq_ge by lia. simpl.
      rewrite lookup_ge_None_2; [reflexivity|].
      rewrite length_app, length_drop, length_take. lia.
  - rewrite Hidx.
    replace (nextWorkerIndex st + length (workers st))
      with (nextWorkerIndex st + 1 * length (workers st)) by lia.
    rewrite Nat.Div0.mod_add. by apply Nat.mod_small.
Qed.

Lemma getNextWorker_round_robin_witness :
  (nextWorkers 2 one_router).1 = [Some 101; Some 100]
  ∧ nextWorkerIndex (nextWorkers 2 one_router).2 = 1.
Proof.
  apply (getNextWorker_round_robin one_router). vm_compute. lia.
Defined.

(** ** The consistency of the registry *)

Lemma consistent_initial pool : consistent (initial pool).
Proof. split; simpl; intros k x H; by rewrite lookup_empty in H. Qed.

Lemma createRouter_frame b st r st' :
  createRouter b st = Ok (r, st') →
  transports st' = transports st ∧ producers st' = producers st
  ∧ consumers st' = consumers st ∧ next_id st' = S (next_id st)
  ∧ routers st' = <[b := r]> (routers st).
Proof.
  unfold createRouter, getNextWorker. simpl.
  destruct (workers st !! nextWorkerIndex st); [|discriminate].
  intros H. injection H as <- <-. simpl. auto.
Qed.

Lemma createWebRtcTransport_fresh b st t st' :
  consistent st → createWebRtcTransport b st = Ok (t, st') →
  transports st !! t_id t = None
  ∧ transports st' = <[t_id t := t]> (transports st)
  ∧ producers st' = producers st ∧ consumers st' = consumers st
  ∧ next_id st < next_id st' ∧ t_id t < next_id st' ∧ next_id st <= t_id t.
Proof.
  intros Hc. unfold createWebRtcTransport.
  assert (∀ k, next_id st <= k → transports st !! k = None) as Hfresh.
  { intros k Hk. destruct (transports st !! k) as [x|] eqn:E; [|done].
    apply (transport_ids st Hc) in E. lia. }
  destruct (getRouter b st) as [r|].
  - intros H. injection H as <- <-. simpl. rewrite Hfresh by lia. repeat split; lia.
  - destruct (createRouter b st) as [[r st1]|e] eqn:Hr; [|discriminate].
    apply createRouter_frame in Hr as (Ht & Hp & Hco & Hn & _).
    intros H. injection H as <- <-. simpl. rewrite Hn, Ht, Hp, Hco.
    rewrite Hfresh by lia. repeat split; lia.
Qed.

Lemma createWebRtcTransport_consistent b st t st' :
  consistent st → createWebRtcTransport b st = Ok (t, st') → consistent st'.
Proof.
  intros Hc H.
  assert (t_id t = t_id t) as Hid by reflexivity.
  pose proof (createWebRtcTransport_fresh b st t st' Hc H)
    as (Hnone & Ht & Hp & Hco & Hn & Hlt & _).
  destruct Hc as [H1 H2 H3 H4 H5].
  split; rewrite ?Ht, ?Hp, ?Hco; intros k x Hk.
  - destruct (decide (t_id t = k)) as [<-|Hne].
    + rewrite lookup_insert_eq in Hk. injection Hk as <-. split; [done|lia].
    + rewrite lookup_insert_ne in Hk by done. destruct (H1 k x Hk). split; [done|lia].
  - destruct (H2 k x Hk). split; [done|lia].
  - destruct (H3 k x Hk). split; [done|lia].
  - destruct (H4 k x Hk) as (t0 & Ht0 & Hr0). exists t0. split; [|done].
    rewrite lookup_insert_ne; [done|]. intros Heq. congruence.
  - destruct (H5 k x Hk) as [[t0 Ht0] Hpr]. split; [|done].
    exists t0. rewrite lookup_insert_ne; [done|]. intros Heq. congruence.
Qed.

Lemma createProducer_consistent tid codec st p st' :
  consistent st → createProducer tid codec st = Ok (p, st') → consistent st'.
Proof.
  intros [H1 H2 H3 H4 H5]. unfold createProducer.
  destruct (transports st !! tid) as [t|] eqn:Ht; [|discriminate].
  destruct (engine_produce st t codec); [|discriminate].
  intros H. injection H as <- <-.
  assert (producers st !! next_id st = None) as Hnone.
  { destruct (producers st !! next_id st) eqn:E; [|done]. apply H2 in E. lia. }
  split; simpl; intros k x Hk.
  - destruct (H1 k x Hk). split; [done|lia].
  - destruct (decide (next_id st = k)) as [<-|Hne].
    + rewrite lookup_insert_eq in Hk. injection Hk as <-. split; [done|lia].
    + rewrite lookup_insert_ne in Hk by done. destruct (H2 k x Hk). split; [done|lia].
  - destruct (H3 k x Hk). split; [done|lia].
  - destruct (decide (next_id st = k)) as [<-|Hne].
    + rewrite lookup_insert_eq in Hk. injection Hk as <-. simpl. eauto.
    + rewrite lookup_insert_ne in Hk by done. eauto.
  - destruct (H5 k x Hk) as [Htr [p0 Hp0]]. split; [done|].
    exists p0. rewrite lookup_insert_ne; [done|]. intros Heq. congruence.
Qed.

Lemma createConsumer_consistent tid pid caps st c st' :
  consistent st → createConsumer tid pid caps st = Ok (c, st') →
  consistent st'.
Proof.
  intros [H1 H2 H3 H4 H5]. unfold createConsumer, createConsumer_checks.
  destruct (transports st !! tid) as [t|] eqn:Ht; [|discriminate].
  destruct (producers st !! pid) as [p|] eqn:Hp; [|discriminate].
  destruct (List.find _ _); [|discriminate].
  destruct (engine_consume st t p caps); [|discriminate].
  intros H. injection H as <- <-.
  split; simpl; intros k x Hk.
  - destruct (H1 k x Hk). split; [done|lia].
  - destruct (H2 k x Hk). split; [done|lia].
  - destruct (decide (next_id st = k)) as [<-|Hne].
    + rewrite lookup_insert_eq in Hk. injection Hk as <-. split; [done|lia].
    + rewrite lookup_insert_ne in Hk by done. destruct (H3 k x Hk). split; [done|lia].
  - eauto.
  - destruct (decide (next_id st = k)) as [<-|Hne].
    + rewrite lookup_insert_eq in Hk. injection Hk as <-. simpl. eauto.
    + rewrite lookup_insert_ne in Hk by done. eauto.
Qed.

Lemma closeTransport_consistent tid st :
  consistent st → consistent (closeTransport tid st).
Proof.
  intros [H1 H2 H3 H4 H5]. unfold closeTransport.
  destruct (transports st !! tid) as [t|] eqn:Ht; [|by split].
  split; simpl; intros k x Hk.
  - apply lookup_delete_Some in Hk as [_ Hk]. eauto.
  - apply map_lookup_filter_Some in Hk as [Hk _]. eauto.
  - apply map_lookup_filter_Some in Hk as [Hk _]. eauto.
  - apply map_lookup_filter_Some in Hk as [Hk Hne]. simpl in Hne.
    destruct (H4 k x Hk) as (t0 & Ht0 & Hr0). exists t0. split; [|done].
    by rewrite lookup_delete_ne.
  - apply map_lookup_filter_Some in Hk as [Hk [Hne Hp]]. simpl in Hne, Hp.
    destruct (H5 k x Hk) as [Htr _]. split; [|exact Hp].
    by rewrite lookup_delete_ne.
Qed.

Lemma closeProducer_consistent pid st :
  consistent st → consistent (closeProducer pid st).
Proof.
  intros [H1 H2 H3 H4 H5]. unfold closeProducer.
  destruct (producers st !! pid) as [p|] eqn:Hp; [|by split].
  split; simpl; intros k x Hk.
  - eauto.
  - apply lookup_delete_Some in Hk as [_ Hk]. eauto.
  - apply map_lookup_filter_Some in Hk as [Hk _]. eauto.
  - apply lookup_delete_Some in Hk as [_ Hk]. eauto.
  - apply map_lookup_filter_Some in Hk as [Hk Hne]. simpl in Hne.
    destruct (H5 k x Hk) as [Htr Hpr]. split; [done|].
    by rewrite lookup_delete_ne.
Qed.

Lemma closeConsumer_consistent cid st :
  consistent st → consistent (closeConsumer cid st).
Proof.
  intros [H1 H2 H3 H4 H5]. unfold closeConsumer.
  destruct (consumers st !! cid) as [c|] eqn:Hc; [|by split].
  split; simpl; intros k x Hk; eauto;
    apply lookup_delete_Some in Hk as [_ Hk]; eauto.
Qed.

Lemma deleteRouter_frame b st :
  transports (deleteRouter b st) = transports st
  ∧ next_id (deleteRouter b st) = next_id st
  ∧ workers (deleteRouter b st) = workers st
  ∧ routers (deleteRouter b st) = delete b (routers st).
Proof.
  unfold deleteRouter. destruct (routers st !! b) eqn:E; simpl; repeat split.
  symmetry. by apply delete_id.
Qed.

(** What closing the router of [b] removes: the producers on that router
    and the consumers on its transports or fed by those producers. *)
Lemma deleteRouter_cascade b r st :
  routers st !! b = Some r →
  (∀ k p, producers (deleteRouter b st) !! k = Some p
          ↔ producers st !! k = Some p ∧ p_router p ≠ r_id r)
  ∧ (∀ k c, consumers (deleteRouter b st) !! k = Some c
            ↔ consumers st !! k = Some c
              ∧ t_router <$> transports st !! c_transport c ≠ Some (r_id r)
              ∧ ∃ p, producers st !! c_producer c = Some p ∧ p_router p ≠ r_id r).
Proof.
  intros Hr. unfold deleteRouter. rewrite Hr. simpl. split.
  - intros k p. apply map_lookup_filter_Some.
  - intros k c. rewrite map_lookup_filter_Some. simpl.
    split; intros (Hk & Ht & [p Hp]); (split; [done|]); (split; [done|]); exists p.
    + by apply map_lookup_filter_Some in Hp.
    + by apply map_lookup_filter_Some.
Qed.

Lemma deleteRouter_consistent b st :
  consistent st → consistent (deleteRouter b st).
Proof.
  intros Hc. destruct (routers st !! b) as [r|] eqn:Hr.
  2:{ unfold deleteRouter. by rewrite Hr. }
  destruct (deleteRouter_cascade b r st Hr) as [Hp Hco].
  destruct (deleteRouter_frame b st) as (Ht & Hn & _).
  destruct Hc as [H1 H2 H3 H4 H5].
  split; rewrite ?Ht, ?Hn; intros k x Hk.
  - eauto.
  - apply Hp in Hk as [Hk _]. eauto.
  - apply Hco in Hk as [Hk _]. eauto.
  - apply Hp in Hk as [Hk _]. eauto.
  - apply Hco in Hk as (Hk & _ & p & Hcp & Hne).
    destruct (H5 k x Hk) as [Htr _]. split; [exact Htr|].
    exists p. apply Hp. by split.
Qed.

Lemma close_all_consistent ids st :
  consistent st → consistent (foldl (λ s id, closeTransport id s) st ids).
Proof.
  revert st. induction ids as [|id ids IH]; intros st Hc; simpl; [done|].
  apply IH. by apply closeTransport_consistent.
Qed.

Lemma cleanupBroadcast_consistent b st :
  consistent st → consistent (cleanupBroadcast b st).
Proof.
  intros Hc. unfold cleanupBroadcast. destruct (getRouter b st); [|done].
  by apply deleteRouter_consistent, close_all_consistent.
Qed.

(** X2: the registry stays consistent under every operation of the
    handler.  Starting from a fresh handler, whatever is created and
    closed: each object is registered under its own id, a new object never
    takes the id of a registered one, every registered producer sits on a
    registered transport, and every registered consumer refers to a
    registered transport and a registered producer.  [deleteRouter]
    unregisters, through the handlers the close of the router fires,
    exactly the producers on that router and the consumers on its
    transports or fed by those producers; the other operations of the
    list close or create what X3 and X4 describe. *)
Theorem registry_stays_consistent st :
  consistent st →
  (∀ b t st', createWebRtcTransport b st = Ok (t, st') →
              consistent st' ∧ transports st !! t_id t = None)
  ∧ (∀ tid codec p st', createProducer tid codec st = Ok (p, st') →
                        consistent st' ∧ producers st !! p_id p = None)
  ∧ (∀ tid pid caps c st',
       createConsumer tid pid caps st = Ok (c, st') →
       consistent st' ∧ consumers st !! c_id c = None)
  ∧ (∀ tid, consistent (closeTransport tid st))
  ∧ (∀ pid, consistent (closeProducer pid st))
  ∧ (∀ cid, consistent (closeConsumer cid st))
  ∧ (∀ b, consistent (deleteRouter b st)
          ∧ ∀ r, routers st !! b = Some r →
                 (∀ k p, producers (deleteRouter b st) !! k = Some p
                         ↔ producers st !! k = Some p ∧ p_router p ≠ r_id r)
                 ∧ (∀ k c, consumers (deleteRouter b st) !! k = Some c
                           ↔ consumers st !! k = Some c
                             ∧ t_router <$> transports st !! c_transport c
                               ≠ Some (r_id r)
                             ∧ ∃ p, producers st !! c_producer c = Some p
                                    ∧ p_router p ≠ r_id r))
  ∧ (∀ b, consistent (cleanupBroadcast b st)).
Proof.
  intros Hc.
  split; [|split; [|split; [|split; [|split; [|split; [|split]]]]]].
  - intros b t st' H. split.
    + by eapply createWebRtcTransport_consistent.
    + by eapply createWebRtcTransport_fresh.
  - intros tid codec p st' H. split.
    + by eapply createProducer_consistent.
    + unfold createProducer in H.
      destruct (transports st !! tid) as [t|]; [|discriminate].
      destruct (engine_produce st t codec); [|discriminate].
      injection H as <- _. simpl.
      destruct (producers st !! next_id st) eqn:E; [|done].
      apply (producer_ids st Hc) in E. lia.
  - intros tid pid caps c st' H. split.
    + by eapply createConsumer_consistent.
    + unfold createConsumer in H.
      destruct (createConsumer_checks _ _ _ _) as [[[t p] r]|]; [|discriminate].
      destruct (engine_consume st t p caps); [|discriminate].
      injection H as <- _. simpl.
      destruct (consumers st !! next_id st) eqn:E; [|done].
      apply (consumer_ids st Hc) in E. lia.
  - intros tid. by apply closeTransport_consistent.
  - intros pid. by apply closeProducer_consistent.
  - intros cid. by apply closeConsumer_consistent.
  - intros b. split; [by apply deleteRouter_consistent|].
    intros r Hr. by apply deleteRouter_cascade.
  - intros b. by apply cleanupBroadcast_consistent.
Qed.

Lemma two_broadcasts_consistent : consistent two_broadcasts.
Proof.
  unfold two_broadcasts, run.
  destruct (createWebRtcTransport "b1" pool2) as [[t1 s1]|] eqn:H1; [|discriminate].
  pose proof (createWebRtcTransport_consistent _ _ _ _ (consistent_initial _) H1) as C1.
  destruct (createWebRtcTransport "b2" s1) as [[t2 s2]|] eqn:H2.
  2:{ vm_compute in H1. injection H1 as <- <-. vm_compute in H2. discriminate. }
  pose proof (createWebRtcTransport_consistent _ _ _ _ C1 H2) as C2.
  destruct (createProducer 3 "audio/opus" s2) as [[p s3]|] eqn:H3; [|exact C2].
  exact (createProducer_consistent _ _ _ _ _ C2 H3).
Qed.

Lemma registry_stays_consistent_witness :
  consistent (closeTransport 3 two_broadcasts)
  ∧ consistent (cleanupBroadcast "b1" two_broadcasts).
Proof.
  destruct (registry_stays_consistent two_broadcasts two_broadcasts_consistent)
    as (_ & _ & _ & Hclose & _ & _ & _ & Hclean).
  split; [apply Hclose | apply Hclean].
Defined.

(** ** Closing *)

(** X3: closing cascades and removes nothing else.  On a consistent
    registry, [closeTransport] unregisters the transport, exactly the
    producers on it, and exactly the consumers on it or fed by one of
    those producers; [closeProducer] unregisters the producer and exactly
    its consumers.  Closing an id that is not registered changes nothing. *)
Theorem close_cascades_exactly st :
  consistent st →
  (∀ tid,
     let st' := closeTransport tid st in
     (∀ k, transports st' !! k = if decide (k = tid) then None else transports st !! k)
     ∧ (∀ k p, producers st' !! k = Some p
               ↔ producers st !! k = Some p ∧ p_transport p ≠ tid)
     ∧ (∀ k c, consumers st' !! k = Some c
               ↔ consumers st !! k = Some c ∧ c_transport c ≠ tid
                 ∧ ∀ p, producers st !! c_producer c = Some p → p_transport p ≠ tid)
     ∧ (transports st !! tid = None → st' = st))
  ∧ (∀ pid,
       let st' := closeProducer pid st in
       transports st' = transports st
       ∧ (∀ k, producers st' !! k = if decide (k = pid) then None else producers st !! k)
       ∧ (∀ k c, consumers st' !! k = Some c
                 ↔ consumers st !! k = Some c ∧ c_producer c ≠ pid)
       ∧ (producers st !! pid = None → st' = st)).
Proof.
  intros Hc. split.
  - intros tid st'. subst st'. unfold closeTransport.
    destruct (transports st !! tid) as [t|] eqn:Ht; simpl.
    + split; [|split; [|split; [|discriminate]]].
      * intros k. destruct (decide (k = tid)) as [->|Hne].
        -- apply lookup_delete_eq.
        -- by apply lookup_delete_ne.
      * intros k p. rewrite map_lookup_filter_Some. reflexivity.
      * intros k c. rewrite map_lookup_filter_Some. simpl. split.
        -- intros (Hk & Hne & [p Hp]). split; [done|]. split; [done|].
           apply map_lookup_filter_Some in Hp as [Hp Hpt]. simpl in Hpt.
           intros p' Hp'. congruence.
        -- intros (Hk & Hne & Hp). split; [done|]. split; [done|].
           destruct (consumer_refs st Hc k c Hk) as [_ [p Hp']].
           exists p. apply map_lookup_filter_Some. split; [done|]. simpl. eauto.
    + split; [|split; [|split; [|done]]].
      * intros k. destruct (decide (k = tid)) as [->|Hne]; done.
      * intros k p. split; [|tauto]. intros Hk. split; [done|].
        destruct (producer_transport st Hc k p Hk) as (t & Hpt & _). congruence.
      * intros k c. split; [|tauto]. intros Hk. split; [done|].
        destruct (consumer_refs st Hc k c Hk) as [[t Hct] _]. split; [congruence|].
        intros p Hp. destruct (producer_transport st Hc _ p Hp) as (t' & Hpt & _).
        congruence.
  - intros pid st'. subst st'. unfold closeProducer.
    destruct (producers st !! pid) as [p|] eqn:Hp; simpl.
    + split; [done|]. split; [|split; [|discriminate]].
      * intros k. destruct (decide (k = pid)) as [->|Hne].
        -- apply lookup_delete_eq.
        -- by apply lookup_delete_ne.
      * intros k c. rewrite map_lookup_filter_Some. reflexivity.
    + split; [done|]. split; [|split; [|done]].
      * intros k. destruct (decide (k = pid)) as [->|Hne]; done.
      * intros k c. split; [|tauto]. intros Hk. split; [done|].
        destruct (consumer_refs st Hc k c Hk) as [_ [p Hcp]]. congruence.
Qed.

Lemma close_cascades_exactly_witness :
  producers (closeTransport 3 two_broadcasts) !! 4 = None
  ∧ transports (closeTransport 3 two_broadcasts) !! 1 = Some (mkTransport 1 0).
Proof.
  destruct (close_cascades_exactly two_broadcasts two_broadcasts_consistent)
    as [Hclose _].
  destruct (Hclose 3) as (Ht & Hp & _). split.
  - destruct (producers (closeTransport 3 two_broadcasts) !! 4) as [p|] eqn:E; [|done].
    apply Hp in E as [E Hne]. vm_compute in E. injection E as <-. simpl in Hne. done.
  - rewrite Ht. simpl. vm_compute. reflexivity.
Defined.

(** X4: a transport that is created and closed again leaves the
    transports, producers and consumers of a consistent registry as they
    were; the router that [createWebRtcTransport] may have created for it
    stays registered. *)
Theorem create_then_close_transport b st t st1 :
  consistent st →
  createWebRtcTransport b st = Ok (t, st1) →
  transports (closeTransport (t_id t) st1) = transports st
  ∧ producers (closeTransport (t_id t) st1) = producers st
  ∧ consumers (closeTransport (t_id t) st1) = consumers st
  ∧ routers (closeTransport (t_id t) st1) = routers st1
  ∧ is_Some (routers st1 !! b).
Proof.
  intros Hc H.
  pose proof (createWebRtcTransport_consistent _ _ _ _ Hc H) as Hc1.
  pose proof (createWebRtcTransport_fresh _ _ _ _ Hc H)
    as (Hnone & Ht & Hp & Hco & _ & _ & Hge).
  assert (∀ k p, producers st !! k = Some p → p_transport p ≠ t_id t) as Hpt.
  { intros k p Hk Heq. destruct (producer_transport st Hc k p Hk) as (t0 & Ht0 & _).
    congruence. }
  assert (is_Some (routers st1 !! b)) as Hrouter.
  { unfold createWebRtcTransport in H. destruct (getRouter b st) as [r|] eqn:Hr.
    - injection H as _ <-. simpl. unfold getRouter in Hr. eauto.
    - destruct (createRouter b st) as [[r st0]|] eqn:Hcr; [|discriminate].
      apply createRouter_frame in Hcr as (_ & _ & _ & _ & Hro).
      injection H as _ <-. simpl. rewrite Hro, lookup_insert_eq. eauto. }
  unfold closeTransport. rewrite Ht, lookup_insert_eq. simpl.
  rewrite Hp, Hco.
  assert (filter (λ kp : nat * Producer, p_transport kp.2 ≠ t_id t) (producers st)
          = producers st) as Hfp.
  { apply map_filter_id. intros k p Hk. simpl. eauto. }
  rewrite Hfp. split; [by rewrite delete_insert_eq, delete_id|].
  split; [done|]. split; [|done].
  apply map_filter_id. intros k c Hk. simpl.
  destruct (consumer_refs st Hc k c Hk) as [[t0 Ht0] Hpr]. split; [congruence|done].
Qed.

Lemma create_then_close_transport_witness :
  ∃ t st1, createWebRtcTransport "b3" two_broadcasts = Ok (t, st1)
           ∧ transports (closeTransport (t_id t) st1) = transports two_broadcasts
           ∧ producers (closeTransport (t_id t) st1) = producers two_broadcasts.
Proof.
  eexists _, _. split; [vm_compute; reflexivity|].
  destruct (create_then_close_transport "b3" two_broadcasts _ _
              two_broadcasts_consistent eq_refl) as (H1 & H2 & _).
  split; [exact H1 | exact H2].
Defined.

(** ** Cleaning up *)

Lemma close_all_frame ids s :
  workers (foldl (λ s id, closeTransport id s) s ids) = workers s
  ∧ routers (foldl (λ s id, closeTransport id s) s ids) = routers s.
Proof.
  revert s. induction ids as [|id ids IH]; intros s; simpl; [done|].
  destruct (IH (closeTransport id s)) as [-> ->].
  unfold closeTransport. by destruct (transports s !! id).
Qed.

(** X5: [cleanupBroadcast] does nothing for a broadcast without a router
    and is idempotent: a second clean-up of the same broadcast changes
    nothing.  Routers of other broadcasts stay registered. *)
Theorem cleanupBroadcast_idempotent b st :
  (getRouter b st = None → cleanupBroadcast b st = st)
  ∧ cleanupBroadcast b (cleanupBroadcast b st) = cleanupBroadcast b st
  ∧ getRouter b (cleanupBroadcast b st) = None
  ∧ (∀ b', b' ≠ b → getRouter b' (cleanupBroadcast b st) = getRouter b' st).
Proof.
  assert (∀ ids s, routers (foldl (λ s id, closeTransport id s) s ids) = routers s)
    as Hfold by (intros ids s; apply close_all_frame).
  assert (getRouter b (cleanupBroadcast b st) = None) as Hgone.
  { unfold cleanupBroadcast. destruct (getRouter b st) as [r|] eqn:Hr; [|done].
    unfold getRouter.
    destruct (deleteRouter_frame b
                (foldl (λ s id, closeTransport id s) st (map_to_list (transports st)).*1))
      as (_ & _ & _ & ->).
    apply lookup_delete_eq. }
  split; [|split; [|split; [exact Hgone|]]].
  - intros Hr. unfold cleanupBroadcast. by rewrite Hr.
  - unfold cleanupBroadcast at 1. by rewrite Hgone.
  - intros b' Hne. unfold cleanupBroadcast.
    destruct (getRouter b st) as [r|] eqn:Hr; [|done]. unfold getRouter.
    destruct (deleteRouter_frame b
                (foldl (λ s id, closeTransport id s) st (map_to_list (transports st)).*1))
      as (_ & _ & _ & ->).
    rewrite lookup_delete_ne by done. by rewrite Hfold.
Qed.

Lemma cleanupBroadcast_idempotent_witness :
  cleanupBroadcast "b9" two_broadcasts = two_broadcasts.
Proof.
  apply (proj1 (cleanupBroadcast_idempotent "b9" two_broadcasts)).
  vm_compute. reflexivity.
Defined.

(** X6: after the clean-up of a broadcast that has a router, [getStats]
    of a consistent registry reports one router less and no transport, no
    producer and no consumer at all. *)
Theorem cleanupBroadcast_stats b st r :
  consistent st →
  getRouter b st = Some r →
  getStats (cleanupBroadcast b st)
  = mkStats (length (workers st)) (size (routers st) - 1) 0 0 0.
Proof.
  intros Hc Hr.
  pose proof (cleanupBroadcast_consistent b st Hc) as Hc'.
  pose proof (MediasoupFacts.cleanupBroadcast_unregisters_all b st r Hr) as Ht.
  assert (producers (cleanupBroadcast b st) = ∅) as Hp.
  { apply map_empty. intros k.
    destruct (producers (cleanupBroadcast b st) !! k) as [p|] eqn:E; [|done].
    destruct (producer_transport _ Hc' k p E) as (t & Hpt & _).
    rewrite Ht, lookup_empty in Hpt. done. }
  assert (consumers (cleanupBroadcast b st) = ∅) as Hco.
  { apply map_empty. intros k.
    destruct (consumers (cleanupBroadcast b st) !! k) as [c|] eqn:E; [|done].
    destruct (consumer_refs _ Hc' k c E) as [[t Hct] _].
    rewrite Ht, lookup_empty in Hct. done. }
  unfold getStats. rewrite Ht, Hp, Hco, !map_size_empty.
  assert (workers (cleanupBroadcast b st) = workers st
          ∧ routers (cleanupBroadcast b st) = delete b (routers st)) as [-> ->].
  { unfold cleanupBroadcast. rewrite Hr.
    destruct (deleteRouter_frame b
                (foldl (λ s id, closeTransport id s) st (map_to_list (transports st)).*1))
      as (_ & _ & -> & ->).
    by destruct (close_all_frame (map_to_list (transports st)).*1 st) as [-> ->]. }
  f_equal. unfold getRouter in Hr.
  rewrite map_size_delete_Some by eauto. lia.
Qed.

Lemma cleanupBroadcast_stats_witness :
  getStats (cleanupBroadcast "b1" two_broadcasts) = mkStats 2 1 0 0 0.
Proof.
  exact (cleanupBroadcast_stats "b1" two_broadcasts (mkRouter 0 100 "b1")
           two_broadcasts_consistent eq_refl).
Defined.

(** ** The capabilities route *)

Lemma rtpCapabilitiesRoute_first b st :
  nextWorkerIndex st < length (workers st) →
  ∃ r st1, rtpCapabilitiesRoute true b st = (RtpCapabilitiesOf (Some r), st1)
           ∧ getRouter b st1 = Some r
           ∧ (∀ r0, getRouter b st = Some r0 → r = r0 ∧ st1 = st).
Proof.
  intros Hw. unfold rtpCapabilitiesRoute. simpl.
  destruct (getRouter b st) as [r0|] eqn:Hr.
  - exists r0, st. split; [done|]. split; [done|]. by intros r1 [= <-].
  - destruct (MediasoupFacts.getNextWorker_in_range st Hw) as [w Hget].
    unfold createRouter. unfold getNextWorker in *. simpl in Hget. rewrite Hget.
    eexists _, _. split; [|split; [|discriminate]].
    + f_equal. f_equal. unfold getRouter. simpl. apply lookup_insert_eq.
    + unfold getRouter. simpl. apply lookup_insert_eq.
Qed.

(** X7: [GET /:broadcastId/rtp-capabilities] creates the broadcast's
    router at most once.  With a worker to take, the first request
    answers with the capabilities of a router registered for the
    broadcast; any later request gives the same answer and leaves the
    handler unchanged.  A request for a missing broadcast answers 404 and
    changes nothing. *)
Theorem rtpCapabilitiesRoute_idempotent b st :
  nextWorkerIndex st < length (workers st) →
  rtpCapabilitiesRoute false b st = (NotFound404, st)
  ∧ ∃ r, (rtpCapabilitiesRoute true b st).1 = RtpCapabilitiesOf (Some r)
         ∧ getRouter b (rtpCapabilitiesRoute true b st).2 = Some r
         ∧ rtpCapabilitiesRoute true b (rtpCapabilitiesRoute true b st).2
           = (RtpCapabilitiesOf (Some r), (rtpCapabilitiesRoute true b st).2)
         ∧ (∀ r0, getRouter b st = Some r0 →
                  r = r0 ∧ (rtpCapabilitiesRoute true b st).2 = st).
Proof.
  intros Hw. split; [reflexivity|].
  destruct (rtpCapabilitiesRoute_first b st Hw) as (r & st1 & Hrun & Hr1 & Hsame).
  rewrite Hrun. simpl. exists r. split; [done|]. split; [done|]. split; [|done].
  unfold rtpCapabilitiesRoute. simpl. by rewrite Hr1.
Qed.

Lemma rtpCapabilitiesRoute_idempotent_witness :
  rtpCapabilitiesRoute false "b1" pool2 = (NotFound404, pool2)
  ∧ ∃ r, (rtpCapabilitiesRoute true "b1" pool2).1 = RtpCapabilitiesOf (Some r)
         ∧ getRouter "b1" (rtpCapabilitiesRoute true "b1" pool2).2 = Some r.
Proof.
  destruct (rtpCapabilitiesRoute_idempotent "b1" pool2) as (H404 & r & H1 & H2 & _).
  - vm_compute. lia.
  - split; [exact H404|]. exists r. split; [exact H1 | exact H2].
Defined.

End MediasoupExtra.

(* ===================================================================== *)
(** * Further properties of the session registry                          *)
(* ===================================================================== *)

Module GatewayExtra.
Import Gateway.

(** ** Counting connected sessions *)

Lemma countConnected_app bid l1 l2 :
  countConnected bid (l1 ++ l2) = countConnected bid l1 + countConnected bid l2.
Proof. unfold countConnected. by rewrite filter_app, length_app. Qed.

Lemma countConnected_one bid s :
  countConnected bid [s]
  = if decide (s_broadcastId s = bid ∧ s_status s = connected) then 1 else 0.
Proof.
  unfold countConnected. destruct (decide _) as [H|H].
  - by rewrite filter_cons_True.
  - by rewrite filter_cons_False.
Qed.

Lemma disconnect_id k s : s_id (disconnect k s) = s_id s.
Proof. unfold disconnect. by destruct (decide _). Qed.

Lemma disconnect_other l k :
  (∀ s, s ∈ l → s_id s ≠ k) → map (disconnect k) l = l.
Proof.
  induction l as [|s l IH]; intros H; simpl; [done|].
  rewrite IH by (intros s' Hin; apply H; by right).
  f_equal. unfold disconnect. destruct (decide _) as [Heq|]; [|done].
  exfalso. by apply (H s); [left|].
Qed.

Lemma disconnect_split ss k s0 :
  (∀ i s, ss !! i = Some s → s_id s = i) →
  ss !! k = Some s0 →
  map (disconnect k) ss = take k ss ++ disconnect k s0 :: drop (S k) ss.
Proof.
  intros Hidx Hk.
  rewrite <- (take_drop_middle ss k s0 Hk) at 1.
  rewrite map_app. simpl. f_equal; [|f_equal]; apply disconnect_other.
  - intros s Hin. apply list_elem_of_lookup in Hin as [i Hi].
    apply lookup_take_Some in Hi as [Hi Hlt]. apply Hidx in Hi. lia.
  - intros s Hin. apply list_elem_of_lookup in Hin as [i Hi].
    rewrite lookup_drop in Hi. apply Hidx in Hi. lia.
Qed.

Lemma countConnected_disconnect ss k s0 bid :
  (∀ i s, ss !! i = Some s → s_id s = i) →
  ss !! k = Some s0 → s_status s0 = connected →
  countConnected bid (map (disconnect k) ss)
  + (if decide (s_broadcastId s0 = bid) then 1 else 0)
  = countConnected bid ss.
Proof.
  intros Hidx Hk Hst.
  rewrite (disconnect_split ss k s0 Hidx Hk).
  rewrite <- (take_drop_middle ss k s0 Hk) at 3.
  rewrite !countConnected_app.
  change (disconnect k s0 :: drop (S k) ss) with ([disconnect k s0] ++ drop (S k) ss).
  change (s0 :: drop (S k) ss) with ([s0] ++ drop (S k) ss).
  rewrite !countConnected_app, !countConnected_one.
  assert (disconnect k s0
          = mkSession (s_id s0) (s_broadcastId s0) (s_userId s0) (s_role s0)
                      (s_socketId s0) disconnected) as ->.
  { unfold disconnect. rewrite decide_True; [done|]. apply Hidx, Hk. }
  simpl. rewrite Hst.
  destruct (decide (s_broadcastId s0 = bid)) as [Hb|Hb].
  - rewrite decide_False by (intros [_ ?]; done).
    rewrite decide_True by done. lia.
  - rewrite !decide_False by (intros [? _]; done). lia.
Qed.

Lemma updateListenerCount_lookup bid count bs k :
  updateListenerCount bid count bs !! k
  = match bs !! k with
    | Some b =>
        if decide (k = bid)
        then Some (mkBroadcast (hostId b) (status b) count
                     (if decide (peakListenerCount b < count) then count
                      else peakListenerCount b))
        else Some b
    | None => None
    end.
Proof.
  unfold updateListenerCount. destruct (decide (k = bid)) as [->|Hne].
  - destruct (bs !! bid) as [b|] eqn:Hb; [by rewrite lookup_insert_eq | by rewrite Hb].
  - destruct (bs !! bid) as [b|] eqn:Hb; [rewrite lookup_insert_ne by done|];
      by destruct (bs !! k).
Qed.

(** ** The invariant of the registry *)

Lemma registry_ok_start bs :
  (∀ k b, bs !! k = Some b → currentListenerCount b = 0) →
  registry_ok (mkState bs [] ∅ ∅).
Proof.
  intros H0. split; simpl.
  - intros i s H. by rewrite lookup_nil in H.
  - intros sock info H. by rewrite lookup_empty in H.
  - intros sock info H. by rewrite lookup_empty in H.
  - intros bid b Hb. rewrite (H0 bid b Hb). split; [reflexivity | lia].
Qed.

Lemma handleJoin_ok socket bid st :
  registry_ok st → registry_ok (handleJoin socket bid st).1.
Proof.
  intros [Hidx Hact Hbr Hcnt]. unfold handleJoin.
  destruct (broadcasts st !! bid) as [b|] eqn:Hb; [|by split].
  destruct (decide (status b = ended)); [by split|].
  set (role := if bool_decide (hostId b = user_id socket) then host else listener).
  set (session := mkSession (length (sessions st)) bid (user_id socket) role
                            (socket_id socket) connected).
  split; simpl.
  - intros i s Hi. apply lookup_app_Some in Hi as [Hi|[Hge Hi]]; [by apply Hidx|].
    destruct (i - length (sessions st)) as [|j] eqn:Hj; simpl in Hi; [|done].
    injection Hi as <-. simpl. lia.
  - intros sock info Hs.
    destruct (decide (socket_id socket = sock)) as [<-|Hne].
    + rewrite lookup_insert_eq in Hs. injection Hs as <-. simpl.
      exists session. split; [|done].
      rewrite lookup_app_r by lia. by rewrite Nat.sub_diag.
    + rewrite lookup_insert_ne in Hs by done.
      destruct (Hact sock info Hs) as (s & Hk & Hrest).
      exists s. split; [|done]. by apply lookup_app_l_Some.
  - intros sock info Hs. rewrite updateListenerCount_lookup.
    destruct (decide (socket_id socket = sock)) as [<-|Hne].
    + rewrite lookup_insert_eq in Hs. injection Hs as <-. simpl.
      rewrite Hb. destruct (decide _); eauto.
    + rewrite lookup_insert_ne in Hs by done.
      destruct (Hbr sock info Hs) as [b' Hb']. rewrite Hb'.
      destruct (decide _); eauto.
  - intros bid' b' Hb'. rewrite updateListenerCount_lookup in Hb'.
    destruct (broadcasts st !! bid') as [b0|] eqn:Hb0; [|done].
    destruct (decide (bid' = bid)) as [->|Hne].
    + injection Hb' as <-. simpl. split; [done|].
      destruct (decide _); lia.
    + injection Hb' as <-. destruct (Hcnt bid' b0 Hb0) as [Hc Hp].
      split; [|done]. rewrite Hc, countConnected_app, countConnected_one.
      rewrite decide_False; [lia|]. simpl. intros [? _]. congruence.
Qed.

(** What [handleLeave] does for a socket that has an entry. *)
Lemma handleLeave_active socket st info :
  registry_ok st →
  activeSessions st !! socket_id socket = Some info →
  ∃ s0,
    sessions st !! sessionId info = Some s0
    ∧ s_status s0 = connected ∧ s_broadcastId s0 = broadcastId info
    ∧ handleLeave socket st
      = (mkState
           (updateListenerCount (broadcastId info)
              (countConnected (broadcastId info)
                 (map (disconnect (sessionId info)) (sessions st)))
              (broadcasts st))
           (map (disconnect (sessionId info)) (sessions st))
           (delete (socket_id socket) (activeSessions st))
           (<[broadcastId info :=
                default ∅ (presence st !! broadcastId info) ∖ {[userId info]}]>
              (presence st)),
         [EvUserLeft (userId info)
            (countConnected (broadcastId info)
               (map (disconnect (sessionId info)) (sessions st)))]).
Proof.
  intros [Hidx Hact Hbr Hcnt] Hs.
  destruct (Hact _ _ Hs) as (s0 & Hk & Hst & Hb & _).
  destruct (Hbr _ _ Hs) as [b Hbb].
  exists s0. split; [done|]. split; [done|]. split; [done|].
  unfold handleLeave. rewrite Hs, Hbb. reflexivity.
Qed.

Lemma handleLeave_ok socket st :
  registry_ok st → registry_ok (handleLeave socket st).1.
Proof.
  intros Hok.
  destruct (activeSessions st !! socket_id socket) as [info|] eqn:Hs.
  2:{ unfold handleLeave. by rewrite Hs. }
  destruct (handleLeave_active socket st info Hok Hs) as (s0 & Hk & Hst & Hb & ->).
  destruct Hok as [Hidx Hact Hbr Hcnt].
  assert (∀ i s, map (disconnect (sessionId info)) (sessions st) !! i = Some s →
                 ∃ s', sessions st !! i = Some s' ∧ s = disconnect (sessionId info) s')
    as Hmap.
  { intros i s Hi. change (map ?f ?l) with (f <$> l) in Hi.
    rewrite list_lookup_fmap in Hi.
    destruct (sessions st !! i) as [s'|]; [|done]. injection Hi as <-. eauto. }
  split; simpl.
  - intros i s Hi. destruct (Hmap i s Hi) as (s' & Hi' & ->).
    rewrite disconnect_id. by apply Hidx.
  - intros sock info' Hs'. apply lookup_delete_Some in Hs' as [Hne Hs'].
    destruct (Hact sock info' Hs') as (s & Hks & Hsts & Hbs & Hus & Hrs & Hsock).
    exists s. split; [|done].
    change (map ?f ?l) with (f <$> l). rewrite list_lookup_fmap, Hks. simpl.
    f_equal. unfold disconnect. rewrite decide_False; [done|].
    rewrite (Hidx _ _ Hks). intros Heq. rewrite Heq in Hks.
    destruct (Hact _ _ Hs) as (s1 & Hk1 & _ & _ & _ & _ & Hsock1). congruence.
  - intros sock info' Hs'. apply lookup_delete_Some in Hs' as [Hne Hs'].
    rewrite updateListenerCount_lookup.
    destruct (Hbr sock info' Hs') as [b' Hb']. rewrite Hb'.
    destruct (decide _); eauto.
  - intros bid' b' Hb'. rewrite updateListenerCount_lookup in Hb'.
    destruct (broadcasts st !! bid') as [b0|] eqn:Hb0; [|done].
    destruct (decide (bid' = broadcastId info)) as [->|Hne].
    + injection Hb' as <-. simpl. split; [done|]. destruct (decide _); lia.
    + injection Hb' as <-. destruct (Hcnt bid' b0 Hb0) as [Hc Hp].
      split; [|done]. rewrite Hc.
      pose proof (countConnected_disconnect _ _ _ bid' Hidx Hk Hst) as Hd.
      rewrite decide_False in Hd by congruence. lia.
Qed.

Lemma reachable_ok st : reachable st → registry_ok st.
Proof.
  induction 1 as [bs H0|st socket bid _ IH|st socket _ IH].
  - by apply registry_ok_start.
  - by apply handleJoin_ok.
  - by apply handleLeave_ok.
Qed.

Lemma handleLeave_hosts socket st :
  registry_ok st → host_sessions_belong_to_host st →
  host_sessions_belong_to_host (handleLeave socket st).1.
Proof.
  intros Hok Hh.
  destruct (activeSessions st !! socket_id socket) as [info|] eqn:Hs.
  2:{ unfold handleLeave. by rewrite Hs. }
  destruct (handleLeave_active socket st info Hok Hs) as (s0 & _ & _ & _ & ->).
  simpl. eapply (GatewayFacts.host_invariant_update _ _ (broadcasts st) _
                   (presence st) (activeSessions st)).
  intros s Hin Hrole. simpl in *.
  apply list_elem_of_In, in_map_iff in Hin as (s' & <- & Hin').
  apply list_elem_of_In in Hin'.
  unfold disconnect in *. destruct (decide _); simpl in *; by apply Hh.
Qed.

Lemma handleJoin_hosts socket bid st :
  host_sessions_belong_to_host st →
  host_sessions_belong_to_host (handleJoin socket bid st).1.
Proof.
  intros Hh. unfold handleJoin.
  destruct (broadcasts st !! bid) as [b|] eqn:Hb; [|done].
  destruct (decide (status b = ended)); [done|]. simpl.
  eapply (GatewayFacts.host_invariant_update _ _ (broadcasts st) _
            (presence st) (activeSessions st)).
  intros s Hin Hrole. simpl in *.
  apply elem_of_app in Hin as [Hin|Hin]; [by apply Hh|].
  apply list_elem_of_singleton in Hin as ->. simpl in *.
  exists b. split; [done|]. by case_bool_decide.
Qed.

Lemma reachable_hosts st : reachable st → host_sessions_belong_to_host st.
Proof.
  induction 1 as [bs H0|st socket bid _ IH|st socket Hr IH].
  - intros s Hin. simpl in Hin. by apply elem_of_nil in Hin.
  - by apply handleJoin_hosts.
  - apply handleLeave_hosts; [by apply reachable_ok | done].
Qed.

(** What [handleJoin] does for a broadcast that exists and has not ended. *)
Lemma handleJoin_accepted socket bid st b :
  broadcasts st !! bid = Some b → status b ≠ ended →
  let st1 := (handleJoin socket bid st).1 in
  ∃ role,
    sessions st1
    = sessions st ++ [mkSession (length (sessions st)) bid (user_id socket) role
                                (socket_id socket) connected]
    ∧ activeSessions st1 !! socket_id socket
      = Some (mkSessionInfo (length (sessions st)) bid (user_id socket) role)
    ∧ ∃ b1, broadcasts st1 !! bid = Some b1 ∧ status b1 = status b
            ∧ hostId b1 = hostId b.
Proof.
  intros Hb Hst. unfold handleJoin. rewrite Hb.
  destruct (decide (status b = ended)); [done|]. simpl.
  eexists. split; [reflexivity|]. split; [apply lookup_insert_eq|].
  rewrite updateListenerCount_lookup, Hb. rewrite decide_True by done. eauto.
Qed.

(** X8: in every state the gateway reaches by joins and leaves, session
    rows are numbered in order, each socket entry designates a connected
    session row with the same broadcast, user and role, for every
    broadcast the stored listener count is the number of its connected
    sessions and is at most the stored peak, and every host-role session
    belongs to the host of its broadcast. *)
Theorem registry_invariant st :
  reachable st → registry_ok st ∧ host_sessions_belong_to_host st.
Proof. intros H. split; [by apply reachable_ok | by apply reachable_hosts]. Qed.

Lemma live_X_reachable : reachable live_X.
Proof.
  apply reach_start. intros k b Hk.
  apply lookup_singleton_Some in Hk as [_ <-]. reflexivity.
Qed.

Lemma registry_invariant_witness :
  registry_ok (handleLeave alice_1 (handleJoin alice_1 "X" live_X).1).1
  ∧ host_sessions_belong_to_host
      (handleLeave alice_1 (handleJoin alice_1 "X" live_X).1).1.
Proof.
  apply registry_invariant.
  apply reach_leave, reach_join, live_X_reachable.
Defined.

(** X9: leaving is idempotent.  In a reachable state, a second
    [handleLeave] (or the [handleDisconnect] that follows a leave) for the
    same socket changes nothing and emits nothing, and so does a leave by
    a socket that never joined. *)
Theorem handleLeave_idempotent socket st :
  reachable st →
  handleDisconnect socket (handleLeave socket st).1 = ((handleLeave socket st).1, [])
  ∧ (activeSessions st !! socket_id socket = None → handleLeave socket st = (st, [])).
Proof.
  intros Hr. apply reachable_ok in Hr.
  assert (activeSessions (handleLeave socket st).1 !! socket_id socket = None) as Hgone.
  { destruct (activeSessions st !! socket_id socket) as [info|] eqn:Hs.
    - destruct (handleLeave_active socket st info Hr Hs) as (s0 & _ & _ & _ & ->).
      simpl. apply lookup_delete_eq.
    - unfold handleLeave. by rewrite Hs. }
  split.
  - unfold handleDisconnect, handleLeave at 1. by rewrite Hgone.
  - intros Hnone. unfold handleLeave. by rewrite Hnone.
Qed.

Lemma handleLeave_idempotent_witness :
  let st1 := (handleLeave alice_1 (handleJoin alice_1 "X" live_X).1).1 in
  handleDisconnect alice_1 st1 = (st1, []).
Proof.
  refine (proj1 (handleLeave_idempotent alice_1 (handleJoin alice_1 "X" live_X).1 _)).
  apply reach_join, live_X_reachable.
Defined.

(** X10: a join followed by the leave of the same socket gives the
    broadcast back its number of connected sessions, in the table and in
    the stored listener count; the ['userLeft'] event announces that
    number; the socket has no entry any more, and the session row is kept,
    disconnected. *)
Theorem join_then_leave socket bid st b :
  reachable st →
  broadcasts st !! bid = Some b → status b ≠ ended →
  let st1 := (handleJoin socket bid st).1 in
  let st2 := (handleLeave socket st1).1 in
  countConnected bid (sessions st2) = countConnected bid (sessions st)
  ∧ (∃ b2, broadcasts st2 !! bid = Some b2
           ∧ currentListenerCount b2 = countConnected bid (sessions st))
  ∧ (handleLeave socket st1).2
    = [EvUserLeft (user_id socket) (countConnected bid (sessions st))]
  ∧ activeSessions st2 !! socket_id socket = None
  ∧ (∃ s, sessions st2 !! length (sessions st) = Some s
          ∧ s_status s = disconnected ∧ s_userId s = user_id socket).
Proof.
  intros Hr Hb Hst st1 st2.
  assert (registry_ok st1) as Hok1 by (apply handleJoin_ok, reachable_ok, Hr).
  destruct (handleJoin_accepted socket bid st b Hb Hst)
    as (role & Hss & Hact & b1 & Hb1 & _ & _).
  fold st1 in Hss, Hact, Hb1.
  destruct (handleLeave_active socket st1 _ Hok1 Hact) as (s0 & Hk & Hs0 & Hb0 & Hrun).
  simpl in Hk, Hb0, Hrun.
  assert (countConnected bid (map (disconnect (length (sessions st))) (sessions st1))
          = countConnected bid (sessions st)) as Hcount.
  { pose proof (countConnected_disconnect _ _ _ bid (session_index _ Hok1) Hk Hs0) as Hd.
    rewrite decide_True in Hd by done.
    rewrite Hss, countConnected_app, countConnected_one in Hd.
    rewrite decide_True in Hd by done. rewrite Hss. lia. }
  subst st2. rewrite Hrun. simpl. rewrite Hcount.
  split; [done|]. split; [|split; [done|split; [apply lookup_delete_eq|]]].
  - rewrite updateListenerCount_lookup, Hb1. rewrite decide_True by done. eauto.
  - change (map ?f ?l) with (f <$> l). rewrite list_lookup_fmap, Hk. simpl.
    eexists. split; [reflexivity|].
    rewrite Hss in Hk. rewrite lookup_app_r in Hk by lia.
    rewrite Nat.sub_diag in Hk. injection Hk as <-.
    unfold disconnect. simpl. by rewrite decide_True.
Qed.

Lemma join_then_leave_witness :
  let st2 := (handleLeave alice_1 (handleJoin alice_1 "X" live_X).1).1 in
  countConnected "X" (sessions st2) = 0
  ∧ activeSessions st2 !! "socket-1" = None.
Proof.
  destruct (join_then_leave alice_1 "X" live_X (mkBroadcast "alice" live 0 0))
    as (H1 & _ & _ & H2 & _).
  - exact live_X_reachable.
  - vm_compute. reflexivity.
  - simpl. discriminate.
  - split; [exact H1 | exact H2].
Defined.

(** X11: a socket that joins twice leaves a session behind.  After two
    joins of the same socket to a broadcast and one leave, the socket has
    no entry any more, yet the broadcast counts one connected session more
    than before: the row of the first join stays connected, and no later
    leave or disconnect of that socket touches it. *)
Theorem double_join_leaves_session socket bid st b :
  reachable st →
  broadcasts st !! bid = Some b → status b ≠ ended →
  let st2 := (handleJoin socket bid (handleJoin socket bid st).1).1 in
  let st3 := (handleLeave socket st2).1 in
  countConnected bid (sessions st3) = S (countConnected bid (sessions st))
  ∧ activeSessions st3 !! socket_id socket = None
  ∧ handleDisconnect socket st3 = (st3, [])
  ∧ (∃ s, sessions st3 !! length (sessions st) = Some s ∧ s_status s = connected
          ∧ s_socketId s = socket_id socket).
Proof.
  intros Hr Hb Hst st2 st3.
  set (st1 := (handleJoin socket bid st).1) in *.
  assert (registry_ok st1) as Hok1 by (apply handleJoin_ok, reachable_ok, Hr).
  assert (registry_ok st2) as Hok2 by (apply handleJoin_ok, Hok1).
  destruct (handleJoin_accepted socket bid st b Hb Hst)
    as (role1 & Hss1 & _ & b1 & Hb1 & Hst1 & _).
  fold st1 in Hss1, Hb1.
  destruct (handleJoin_accepted socket bid st1 b1 Hb1 ltac:(congruence))
    as (role2 & Hss2 & Hact2 & _).
  fold st2 in Hss2, Hact2.
  destruct (handleLeave_active socket st2 _ Hok2 Hact2) as (s0 & Hk & Hs0 & Hb0 & Hrun).
  simpl in Hk, Hb0, Hrun.
  subst st3. rewrite Hrun. simpl.
  split; [|split; [apply lookup_delete_eq|split]].
  - pose proof (countConnected_disconnect _ _ _ bid (session_index _ Hok2) Hk Hs0) as Hd.
    rewrite decide_True in Hd by done.
    rewrite Hss2, Hss1, !countConnected_app, !countConnected_one in Hd.
    rewrite !decide_True in Hd by done.
    rewrite Hss2, Hss1. lia.
  - unfold handleDisconnect, handleLeave. simpl. by rewrite lookup_delete_eq.
  - change (map ?f ?l) with (f <$> l). rewrite list_lookup_fmap.
    rewrite Hss2, Hss1. rewrite lookup_app_l by (rewrite length_app; simpl; lia).
    rewrite lookup_app_r by lia. rewrite Nat.sub_diag. simpl.
    eexists. split; [reflexivity|].
    unfold disconnect. simpl. rewrite decide_False; [done|].
    rewrite length_app. simpl. lia.
Qed.

Lemma double_join_leaves_session_witness :
  let st2 := (handleJoin alice_1 "X" (handleJoin alice_1 "X" live_X).1).1 in
  let st3 := (handleLeave alice_1 st2).1 in
  countConnected "X" (sessions st3) = 1
  ∧ activeSessions st3 !! "socket-1" = None.
Proof.
  destruct (double_join_leaves_session alice_1 "X" live_X (mkBroadcast "alice" live 0 0))
    as (H1 & H2 & _).
  - exact live_X_reachable.
  - vm_compute. reflexivity.
  - simpl. discriminate.
  - split; [exact H1 | exact H2].
Defined.



(** X13: publishing is reserved to hosts.  In a reachable state,
    [handlePublishOffer] accepts, whatever broadcast the request names,
    only a socket whose entry designates a connected host-role session of
    a broadcast hosted by the session's user; every other socket gets
    'Only host can publish'.  A subscribe request is answered exactly for
    the sockets that have an entry. *)
Theorem publish_only_by_host socket bid sdp st :
  reachable st →
  (handlePublishOffer socket bid sdp st = [PublishAccepted sdp]
   ∨ handlePublishOffer socket bid sdp st = [SigError "Only host can publish"])
  ∧ (handlePublishOffer socket bid sdp st = [PublishAccepted sdp] →
     ∃ info s b,
       activeSessions st !! socket_id socket = Some info
       ∧ sessions st !! sessionId info = Some s
       ∧ s_status s = connected ∧ s_role s = host
       ∧ broadcasts st !! s_broadcastId s = Some b
       ∧ hostId b = s_userId s)
  ∧ (handleSubscribeRequest socket bid st = [SubscribeOffer bid]
     ↔ is_Some (activeSessions st !! socket_id socket)).
Proof.
  intros Hr. pose proof (reachable_ok st Hr) as Hok.
  pose proof (reachable_hosts st Hr) as Hh.
  unfold handlePublishOffer, handleSubscribeRequest.
  destruct (activeSessions st !! socket_id socket) as [info|] eqn:Hs.
  - split; [destruct (decide _); auto|]. split.
    + destruct (decide (role info = host)) as [Hrole|]; [|discriminate]. intros _.
      destruct (active_session st Hok _ _ Hs) as (s & Hk & Hst & Hb & Hu & Hro & _).
      destruct (Hh s) as (b & Hbb & Hhost).
      { apply list_elem_of_lookup. eauto. }
      { congruence. }
      exists info, s, b. repeat split; try done. congruence.
    + split; eauto.
  - split; [auto|]. split; [discriminate|].
    split; [discriminate | intros [? ?]; discriminate].
Qed.

Lemma publish_only_by_host_witness :
  handlePublishOffer alice_1 "X" "offer" (handleJoin alice_1 "X" live_X).1
  = [PublishAccepted "offer"]
  ∨ handlePublishOffer alice_1 "X" "offer" (handleJoin alice_1 "X" live_X).1
    = [SigError "Only host can publish"].
Proof.
  refine (proj1 (publish_only_by_host alice_1 "X" "offer"
                   (handleJoin alice_1 "X" live_X).1 _)).
  apply reach_join, live_X_reachable.
Defined.

End GatewayExtra.

(* ===================================================================== *)
(** * Further properties of the capacity controller                       *)
(* ===================================================================== *)

Module OrchestratorExtra.
Import JsNum Orchestrator.

(** ** The metrics store *)

Lemma map_get_set_eq {V} k (v : V) m : map_get k (map_set k v m) = Some v.
Proof.
  induction m as [|[k' v'] m IH]; simpl.
  - by rewrite String.eqb_refl.
  - destruct (String.eqb k' k) eqn:E; simpl.
    + by rewrite String.eqb_refl.
    + by rewrite E.
Qed.

Lemma map_get_set_ne {V} k k' (v : V) m :
  k' ≠ k → map_get k' (map_set k v m) = map_get k' m.
Proof.
  intros Hne. induction m as [|[k0 v0] m IH]; simpl.
  - destruct (String.eqb k k') eqn:E; [|done].
    apply String.eqb_eq in E. congruence.
  - destruct (String.eqb k0 k) eqn:E; simpl.
    + apply String.eqb_eq in E as ->.
      destruct (String.eqb k k') eqn:E'; [|done].
      apply String.eqb_eq in E'. congruence.
    + by rewrite IH.
Qed.

Lemma map_get_None_keys {V} k (m : list (string * V)) :
  map_get k m = None ↔ k ∉ m.*1.
Proof.
  induction m as [|[k0 v0] m IH].
  - split; [intros _; apply not_elem_of_nil | done].
  - cbn [map_get]. rewrite fmap_cons, not_elem_of_cons. cbn [fst].
    destruct (String.eqb k0 k) eqn:E.
    + apply String.eqb_eq in E as ->. split; [done|]. intros [H _]. done.
    + apply String.eqb_neq in E. rewrite IH. split; [|tauto].
      intros H. split; [congruence|done].
Qed.

Lemma map_set_keys {V} k (v : V) m :
  (map_set k v m).*1
  = match map_get k m with Some _ => m.*1 | None => m.*1 ++ [k] end.
Proof.
  induction m as [|[k0 v0] m IH]; [done|].
  cbn [map_set map_get]. destruct (String.eqb k0 k) eqn:E.
  - apply String.eqb_eq in E as ->. by rewrite !fmap_cons.
  - rewrite !fmap_cons, IH. by destruct (map_get k m).
Qed.

Lemma map_set_new {V} k (v : V) m :
  map_get k m = None → map_set k v m = m ++ [(k, v)].
Proof.
  induction m as [|[k0 v0] m IH]; simpl; [done|].
  destruct (String.eqb k0 k); [done|]. intros H. by rewrite IH.
Qed.

(** X14: the metrics store keeps the last report of each instance.
    After [processMetrics] for an instance, [this.metrics] holds for it
    the reported values stamped with the current time, and the snapshots
    of the other instances are untouched; an instance is never listed
    twice, so a repeated report leaves the number of snapshots (the
    divisor of the averages) unchanged, while a first report adds exactly
    its own values to the sums of the next aggregation. *)
Theorem processMetrics_last_write_wins id m st :
  NoDup (metrics st).*1 →
  let st' := processMetrics id m st in
  map_get id (metrics st') = Some (snapshot_of m (clock st))
  ∧ (∀ id', id' ≠ id → map_get id' (metrics st') = map_get id' (metrics st))
  ∧ NoDup (metrics st').*1
  ∧ (is_Some (map_get id (metrics st)) →
     length (metrics st') = length (metrics st))
  ∧ (map_get id (metrics st) = None →
     length (metrics st') = S (length (metrics st))
     ∧ ∀ f, sum_field f (metrics st')
            = jsadd (sum_field f (metrics st)) (or0 (f (snapshot_of m (clock st))))).
Proof.
  intros Hnd st'.
  assert (metrics st' = map_set id (snapshot_of m (clock st)) (metrics st)) as ->.
  { subst st'. unfold processMetrics.
    repeat (match goal with |- context [if ?c then _ else _] => destruct c end);
      reflexivity. }
  split; [apply map_get_set_eq|]. split; [intros id' Hne; by apply map_get_set_ne|].
  split; [|split].
  - rewrite map_set_keys. destruct (map_get id (metrics st)) eqn:E; [done|].
    apply NoDup_app. split; [done|]. split; [|apply NoDup_singleton].
    intros k Hk Hin. apply list_elem_of_singleton in Hin as ->.
    by apply map_get_None_keys in E.
  - intros [x Hx].
    rewrite <- (length_fmap fst (map_set _ _ _)), map_set_keys, Hx.
    apply length_fmap.
  - intros Hnone. rewrite map_set_new by done. split.
    + rewrite length_app. simpl. lia.
    + intros f. unfold sum_field. by rewrite fold_left_app.
Qed.

Lemma processMetrics_last_write_wins_witness :
  let m := mkMetricsMsg (Some (of_Z 95)) None (Some (of_Z 4)) None None in
  map_get "i1" (metrics (processMetrics "i1" m stale_store))
  = Some (snapshot_of m t0)
  ∧ length (metrics (processMetrics "i1" m stale_store)) = 1%nat.
Proof.
  intros m.
  destruct (processMetrics_last_write_wins "i1" m stale_store) as (H1 & _ & _ & H2 & _).
  - simpl. apply NoDup_singleton.
  - split; [exact H1|]. apply H2. vm_compute. eauto.
Defined.

(** ** Choosing the region of a relay *)

Lemma increment_count r r' d c0 :
  map_get r d = Some c0 →
  default 0 (map_get r' (increment r d))
  = default 0 (map_get r' d) + (if decide (r = r') then 1 else 0).
Proof.
  induction d as [|[k c] d IH]; cbn [increment map_get]; [discriminate|].
  destruct (String.eqb k r) eqn:E; cbn [map_get].
  - intros _. apply String.eqb_eq in E as ->. destruct (String.eqb r r') eqn:E'.
    + apply String.eqb_eq in E'. rewrite decide_True by done. simpl. lia.
    + apply String.eqb_neq in E'. rewrite decide_False by done. lia.
  - intros Hr. destruct (String.eqb k r') eqn:E'; [|by apply IH].
    apply String.eqb_eq in E' as ->. apply String.eqb_neq in E.
    rewrite decide_False by congruence. simpl. lia.
Qed.

Lemma add_entry_count r r' d :
  map_get r d = None →
  default 0 (map_get r' (add_entry r d))
  = default 0 (map_get r' d) + (if decide (r = r') then 1 else 0).
Proof.
  induction d as [|[k c] d IH]; cbn [add_entry map_get].
  - intros _. destruct (String.eqb r r') eqn:E.
    + apply String.eqb_eq in E. by rewrite decide_True.
    + apply String.eqb_neq in E. by rewrite decide_False.
  - destruct (String.eqb k r) eqn:Ek; [discriminate|]. intros Hr.
    apply String.eqb_neq in Ek.
    destruct (enumerated_before r k); cbn [map_get].
    + destruct (String.eqb r r') eqn:E.
      * apply String.eqb_eq in E as <-. rewrite decide_True by done.
        rewrite (proj2 (String.eqb_neq k r) Ek). by rewrite Hr.
      * apply String.eqb_neq in E. rewrite decide_False by done. lia.
    + destruct (String.eqb k r') eqn:E'; [|by apply IH].
      apply String.eqb_eq in E' as ->. rewrite decide_False by congruence.
      simpl. lia.
Qed.

Lemma increment_keys r d : (increment r d).*1 = d.*1.
Proof.
  induction d as [|[k c] d IH]; [done|]. cbn [increment].
  destruct (String.eqb k r); rewrite !fmap_cons; [done|]. by rewrite IH.
Qed.

Lemma add_entry_keys r d : (add_entry r d).*1 ≡ₚ r :: d.*1.
Proof.
  induction d as [|[k c] d IH]; [done|]. cbn [add_entry].
  destruct (enumerated_before r k); rewrite !fmap_cons; [done|].
  rewrite IH. simpl. apply perm_swap.
Qed.

Lemma increment_total r d c0 :
  map_get r d = Some c0 → sum_list (increment r d).*2 = S (sum_list d.*2).
Proof.
  induction d as [|[k c] d IH]; cbn [increment map_get]; [discriminate|].
  destruct (String.eqb k r); rewrite !fmap_cons; simpl; [done|].
  intros Hr. rewrite IH by done. lia.
Qed.

Lemma add_entry_total r d : sum_list (add_entry r d).*2 = S (sum_list d.*2).
Proof.
  induction d as [|[k c] d IH]; [done|]. cbn [add_entry].
  destruct (enumerated_before r k); rewrite !fmap_cons; simpl; [done|].
  rewrite IH. lia.
Qed.

(** What [bump] does to the numeric entries: nothing for an inherited
    name, one more for any other region. *)
Lemma bump_spec r d :
  NoDup d.*1 →
  let n := if decide (r ∈ inherited_names) then 0 else 1 in
  NoDup (bump r d).*1
  ∧ sum_list (bump r d).*2 = sum_list d.*2 + n
  ∧ (∀ r', default 0 (map_get r' (bump r d))
           = default 0 (map_get r' d) + (if decide (r = r') then n else 0))
  ∧ (∀ r', r' ∈ (bump r d).*1 → r' ∈ d.*1 ∨ (r' = r ∧ r ∉ inherited_names)).
Proof.
  intros Hnd n. subst n. unfold bump. case_bool_decide as Hin.
  - rewrite decide_True by done. split; [done|]. split; [lia|].
    split; [|by left]. intros r'. destruct (decide (r = r')); lia.
  - rewrite decide_False by done. destruct (map_get r d) as [c0|] eqn:Hr.
    + rewrite increment_keys. split; [done|].
      split; [rewrite (increment_total r d c0 Hr); lia|].
      split; [intros r'; by apply (increment_count r r' d c0)|]. by left.
    + split.
      { rewrite add_entry_keys. apply NoDup_cons. split; [|done].
        by apply map_get_None_keys. }
      split; [rewrite add_entry_total; lia|].
      split; [intros r'; by apply add_entry_count|].
      intros r'. rewrite add_entry_keys. intros [->|Hin']%elem_of_cons; auto.
Qed.

Lemma distribution_from ls : ∀ d,
  NoDup d.*1 →
  let d' := fold_left (λ d l, bump (region_of l) d) ls d in
  NoDup d'.*1
  ∧ sum_list d'.*2
    = sum_list d.*2 + length (filter (λ l, region_of l ∉ inherited_names) ls)
  ∧ (∀ r, default 0 (map_get r d')
          = default 0 (map_get r d)
            + (if decide (r ∈ inherited_names) then 0
               else length (filter (λ l, region_of l = r) ls)))
  ∧ (∀ r, r ∈ d'.*1 → r ∈ d.*1 ∨ r ∉ inherited_names).
Proof.
  induction ls as [|l ls IH]; intros d Hnd; cbn [fold_left].
  - split; [done|]. split; [simpl; lia|].
    split; [|by left]. intros r. destruct (decide _); simpl; lia.
  - destruct (bump_spec (region_of l) d Hnd) as (Hnd' & Hsum & Hcount & Hkeys).
    destruct (IH (bump (region_of l) d) Hnd') as (H1 & H2 & H3 & H4).
    split; [exact H1|]. split; [|split].
    + rewrite H2, Hsum.
      destruct (decide (region_of l ∈ inherited_names)) as [Hin|Hin].
      * rewrite filter_cons_False by (intros H; by apply H). lia.
      * rewrite filter_cons_True by done. simpl. lia.
    + intros r. rewrite H3, Hcount.
      destruct (decide (region_of l = r)) as [Heq|Hne].
      * rewrite filter_cons_True by done. rewrite <- Heq.
        destruct (decide (region_of l ∈ inherited_names)); simpl; lia.
      * rewrite filter_cons_False by done. lia.
    + intros r Hr. destruct (H4 r Hr) as [Hr'|Hr']; [|by right].
      destruct (Hkeys r Hr') as [?|[-> ?]]; auto.
Qed.

(** X15: [getListenerRegionDistribution] counts the listeners of each
    region.  Among the entries that hold a number, each region is listed
    once; a region whose name is not inherited from [Object.prototype]
    counts the listeners whose region (['unknown'] when missing or empty)
    it is; an inherited name never holds a number; and the counts add up
    to the number of listeners whose region is not an inherited name. *)
Theorem getListenerRegionDistribution_counts listeners :
  let d := getListenerRegionDistribution listeners in
  NoDup d.*1
  ∧ (∀ r, r ∉ inherited_names →
          default 0 (map_get r d) = length (filter (λ l, region_of l = r) listeners))
  ∧ (∀ r, r ∈ inherited_names → map_get r d = None)
  ∧ sum_list d.*2
    = length (filter (λ l, region_of l ∉ inherited_names) listeners).
Proof.
  destruct (distribution_from listeners [] (NoDup_nil_2 : NoDup ([] : list (string * nat)).*1))
    as (H1 & H2 & H3 & H4).
  cbv zeta. unfold getListenerRegionDistribution.
  split; [exact H1|]. split; [|split; [|exact H2]].
  - intros r Hr. rewrite H3. by rewrite decide_False.
  - intros r Hr.
    destruct (map_get r (fold_left _ listeners [])) as [c|] eqn:E; [|done].
    exfalso. assert (r ∈ (fold_left (λ d l, bump (region_of l) d) listeners []).*1) as Hin.
    { destruct (decide (r ∈ (fold_left (λ d l, bump (region_of l) d) listeners []).*1))
        as [?|Hno]; [done|].
      apply map_get_None_keys in Hno. congruence. }
    destruct (H4 r Hin) as [Hnil|Hno]; [by apply elem_of_nil in Hnil | done].
Qed.

(** Seven listeners: the two whose region is an inherited name are not
    counted, the array indices come first, in ascending order. *)
Example distribution_of_odd_names :
  getListenerRegionDistribution listeners_odd
  = [("2", 1); ("10", 1); ("eu", 2); ("unknown", 1)].
Proof. vm_compute. reflexivity. Qed.

Lemma selectOptimalRegion_fold cfg d : ∀ mx opt,
  let res := fold_left
               (λ (acc : nat * option string) (rc : string * nat),
                  if (acc.1 <? rc.2)%nat && bool_decide (rc.1 ∈ regions cfg)
                  then (rc.2, Some rc.1) else acc)
               d (mx, opt) in
  (mx <= res.1)%nat
  ∧ (∀ r c, (r, c) ∈ d → r ∈ regions cfg → (c <= res.1)%nat)
  ∧ (res = (mx, opt) ∨ ∃ r, res.2 = Some r ∧ (r, res.1) ∈ d ∧ r ∈ regions cfg).
Proof.
  induction d as [|[r0 c0] d IH]; intros mx opt; simpl.
  - split; [lia|]. split; [|by left]. intros r c Hin. by apply elem_of_nil in Hin.
  - destruct ((mx <? c0)%nat && bool_decide (r0 ∈ regions cfg)) eqn:E.
    + apply andb_prop in E as [Hlt Hin]. apply Nat.ltb_lt in Hlt.
      apply bool_decide_eq_true in Hin.
      destruct (IH c0 (Some r0)) as (Hmono & Hmax & Hsrc).
      split; [lia|]. split.
      * intros r c Hrc Hr. apply elem_of_cons in Hrc as [[= -> ->]|Hrc]; [done|].
        by apply (Hmax r c).
      * right. destruct Hsrc as [->|(r & Hr & Hin' & Hreg)].
        -- exists r0. simpl. split; [done|]. split; [by left|done].
        -- exists r. split; [done|]. split; [by right|done].
    + destruct (IH mx opt) as (Hmono & Hmax & Hsrc).
      split; [lia|]. split.
      * intros r c Hrc Hr.
        apply elem_of_cons in Hrc as [[= -> ->]|Hrc]; [|by apply (Hmax r c)].
        apply andb_false_iff in E as [E|E].
        -- apply Nat.ltb_ge in E. lia.
        -- apply bool_decide_eq_false in E. done.
      * destruct Hsrc as [->|(r & Hr & Hin' & Hreg)]; [by left|].
        right. exists r. split; [done|]. split; [by right|done].
Qed.

(** X16: [selectOptimalRegion] returns a configured region with the most
    listeners.  When regions are configured, the result is one of them;
    no configured region of the distribution has more listeners than the
    result has; and when no configured region has any listener the result
    is the first configured region. *)
Theorem selectOptimalRegion_maximal cfg d first others :
  regions cfg = first :: others →
  ∃ r best,
    selectOptimalRegion cfg d = Some r
    ∧ r ∈ regions cfg
    ∧ (∀ r' c, (r', c) ∈ d → r' ∈ regions cfg → (c <= best)%nat)
    ∧ ((best = 0%nat ∧ r = first) ∨ (r, best) ∈ d).
Proof.
  intros Hreg. unfold selectOptimalRegion.
  destruct (selectOptimalRegion_fold cfg d 0%nat (head (regions cfg)))
    as (_ & Hmax & Hsrc).
  set (res := fold_left _ _ _) in *.
  destruct Hsrc as [Hres|(r & Hr & Hin & Hr')].
  - exists first, 0%nat. rewrite Hres in *. simpl in *.
    split; [by rewrite Hreg|]. split; [rewrite Hreg; by left|].
    split; [exact Hmax | by left].
  - exists r, res.1. split; [done|]. split; [done|]. split; [exact Hmax | by right].
Qed.

Lemma selectOptimalRegion_maximal_witness :
  ∃ r best,
    selectOptimalRegion default_config (getListenerRegionDistribution listeners_X)
    = Some r
    ∧ r ∈ regions default_config
    ∧ (∀ r' c, (r', c) ∈ getListenerRegionDistribution listeners_X →
               r' ∈ regions default_config → (c <= best)%nat)
    ∧ ((best = 0%nat ∧ r = "us-east-1")
       ∨ (r, best) ∈ getListenerRegionDistribution listeners_X).
Proof.
  apply (selectOptimalRegion_maximal default_config _ "us-east-1"
           ["eu-west-1"; "ap-southeast-1"]).
  reflexivity.
Defined.

(** ** Instance types *)

(** X17: bigger loads get bigger instances.  For numeric loads, the
    hourly price of the type [selectInstanceType] picks never decreases
    when the load grows; a load that is not a number gets the largest
    type. *)
Theorem selectInstanceType_monotone x y :
  (x <= y)%Q →
  (getInstanceCostPerHour (selectInstanceType (Fin x))
   <= getInstanceCostPerHour (selectInstanceType (Fin y)))%Q
  ∧ selectInstanceType NaN = "t3.2xlarge".
Proof.
  intros Hxy. split; [|reflexivity].
  unfold selectInstanceType, jslt, of_Z, Qlt_bool.
  destruct (Qle_bool (inject_Z 100) x) eqn:X1;
  destruct (Qle_bool (inject_Z 500) x) eqn:X2;
  destruct (Qle_bool (inject_Z 1000) x) eqn:X3;
  destruct (Qle_bool (inject_Z 100) y) eqn:Y1;
  destruct (Qle_bool (inject_Z 500) y) eqn:Y2;
  destruct (Qle_bool (inject_Z 1000) y) eqn:Y3;
  simpl; try (vm_compute; discriminate);
  exfalso;
  repeat match goal with
         | H : Qle_bool _ _ = true |- _ => apply Qle_bool_iff in H
         | H : Qle_bool _ _ = false |- _ => apply OrchestratorFacts.Qle_bool_false in H
         end;
  lra.
Qed.

Lemma selectInstanceType_monotone_witness :
  (getInstanceCostPerHour (selectInstanceType (Fin 99))
   <= getInstanceCostPerHour (selectInstanceType (Fin 500)))%Q
  ∧ selectInstanceType NaN = "t3.2xlarge".
Proof. apply (selectInstanceType_monotone 99 500). vm_compute. discriminate. Defined.

(** ** The victims of a scale-down *)

Lemma load_key_number m id : load_key m id ≠ NaN.
Proof.
  unfold load_key, or0.
  destruct (match map_get id m with Some s => listenerCount s | None => None end)
    as [[x| | |]|]; simpl; try done.
  by destruct (negb (Qeq_bool x 0)).
Qed.

Lemma jslt_asym a b : jslt a b = true → jslt b a = false.
Proof.
  destruct a as [x| | |], b as [y| | |]; simpl; try done.
  unfold Qlt_bool. intros H. apply negb_true_iff in H.
  apply OrchestratorFacts.Qle_bool_false in H.
  apply negb_false_iff, Qle_bool_iff. lra.
Qed.

Lemma jsle_trans a b c :
  a ≠ NaN → b ≠ NaN → c ≠ NaN →
  jslt b a = false → jslt c b = false → jslt c a = false.
Proof.
  destruct a as [x| | |], b as [y| | |], c as [z| | |]; simpl; try done.
  unfold Qlt_bool. intros _ _ _ H1 H2.
  apply negb_false_iff, Qle_bool_iff in H1. apply negb_false_iff, Qle_bool_iff in H2.
  apply negb_false_iff, Qle_bool_iff. lra.
Qed.

Lemma insert_by_load_perm m x l : insert_by_load m x l ≡ₚ x :: l.
Proof.
  induction l as [|y l IH]; simpl; [done|].
  destruct (jslt _ _); [|done]. rewrite IH. apply Permutation_swap.
Qed.

Lemma insert_by_load_sorted m x l :
  StronglySorted (lighter m) l → StronglySorted (lighter m) (insert_by_load m x l).
Proof.
  induction l as [|y l IH]; intros Hs; simpl.
  - constructor; [constructor|constructor].
  - apply StronglySorted_inv in Hs as [Hs Hy].
    destruct (jslt (load_key m y.1) (load_key m x.1)) eqn:E.
    + constructor; [by apply IH|].
      apply Forall_forall. intros z Hz. rewrite insert_by_load_perm in Hz.
      apply elem_of_cons in Hz as [->|Hz].
      * unfold lighter. by apply jslt_asym.
      * rewrite Forall_forall in Hy. by apply Hy.
    + constructor; [by constructor|].
      constructor; [exact E|].
      apply Forall_forall. intros z Hz. rewrite Forall_forall in Hy.
      unfold lighter. eapply (jsle_trans _ (load_key m y.1)); auto using load_key_number.
      by apply Hy.
Qed.

Lemma sort_by_load_sorted m l :
  sort_by_load m l ≡ₚ l ∧ StronglySorted (lighter m) (sort_by_load m l).
Proof.
  induction l as [|x l [IHp IHs]]; simpl.
  - split; [done | constructor].
  - split; [by rewrite insert_by_load_perm, IHp | by apply insert_by_load_sorted].
Qed.

Lemma sorted_across {A} (R : A → A → Prop) l1 l2 x y :
  StronglySorted R (l1 ++ l2) → x ∈ l1 → y ∈ l2 → R x y.
Proof.
  induction l1 as [|a l1 IH]; simpl; intros Hs Hx Hy.
  - by apply elem_of_nil in Hx.
  - apply StronglySorted_inv in Hs as [Hs Ha].
    apply elem_of_cons in Hx as [->|Hx]; [|by apply IH].
    rewrite Forall_forall in Ha. apply Ha. apply elem_of_app. by right.
Qed.

(** X18: [scaleDown] picks the least loaded instances.  The instances it
    selects for termination and those it keeps are together exactly the
    fleet; it never selects more instances than there are; and no kept
    instance reports fewer listeners than a selected one (an instance
    without a snapshot or without a count ranks as [0]). *)
Theorem scaleDown_victims_least_loaded st :
  instancesToTerminate st ++ instancesKept st ≡ₚ (instances st).*1
  ∧ length (instancesToTerminate st) <= length (instances st)
  ∧ ∀ v k, v ∈ instancesToTerminate st → k ∈ instancesKept st →
           jslt (load_key (metrics st) k) (load_key (metrics st) v) = false.
Proof.
  unfold instancesToTerminate, instancesKept.
  set (n := slice_count _ _).
  destruct (sort_by_load_sorted (metrics st) (instances st)) as [Hp Hs].
  set (sorted := sort_by_load _ _) in *.
  split; [|split].
  - rewrite <- fmap_app, take_drop. by rewrite Hp.
  - rewrite length_fmap, length_take. rewrite <- (Permutation_length Hp). lia.
  - intros v k Hv Hk.
    apply list_elem_of_fmap in Hv as (x & -> & Hx).
    apply list_elem_of_fmap in Hk as (y & -> & Hy).
    rewrite <- (take_drop n sorted) in Hs.
    exact (sorted_across _ _ _ x y Hs Hx Hy).
Qed.

(** ** Bounds on the aggregate *)

Lemma or0_within M v : (0 <= M)%Q → within M v → ∃ y, or0 v = Fin y ∧ (0 <= y <= M)%Q.
Proof.
  intros HM Hw. destruct v as [[x| | |]|]; simpl in *; try done.
  - destruct (negb (Qeq_bool x 0)); [eauto|]. exists 0%Q. split; [done|]. lra.
  - exists 0%Q. split; [done|]. lra.
  - exists 0%Q. split; [done|]. lra.
Qed.

Lemma fold_sum_within M f (m : Metrics) : ∀ s (k : Z),
  (0 <= M)%Q →
  (0 <= s <= M * inject_Z k)%Q →
  (∀ kv, kv ∈ m → within M (f kv.2)) →
  ∃ s', fold_left (λ acc kv, jsadd acc (or0 (f kv.2))) m (Fin s) = Fin s'
        ∧ (0 <= s' <= M * inject_Z (k + Z.of_nat (length m)))%Q.
Proof.
  induction m as [|kv m IH]; intros s k HM Hs Hm; cbn [fold_left].
  - exists s. split; [done|]. simpl. by rewrite Z.add_0_r.
  - destruct (or0_within M (f kv.2) HM) as (y & -> & Hy); [apply Hm; by left|].
    cbn [jsadd]. destruct (IH (s + y)%Q (k + 1)%Z HM) as (s' & Hf & Hs').
    + rewrite inject_Z_plus. change (inject_Z 1) with 1%Q. nra.
    + intros kv' Hin. apply Hm. by right.
    + exists s'. split; [exact Hf|].
      replace (k + Z.of_nat (length (kv :: m)))%Z
        with (k + 1 + Z.of_nat (length m))%Z by (simpl length; lia).
      exact Hs'.
Qed.

Lemma average_within M f st :
  (0 <= M)%Q →
  (∀ kv, kv ∈ metrics st → within M (f kv.2)) →
  ∃ a, (if (0 <? length (metrics st))%nat
        then jsdiv (sum_field f (metrics st)) (of_Z (Z.of_nat (length (metrics st))))
        else Fin 0) = Fin a
       ∧ (0 <= a <= M)%Q.
Proof.
  intros HM Hm.
  destruct (0 <? length (metrics st))%nat eqn:Hlen.
  2:{ exists 0%Q. split; [done|]. lra. }
  apply Nat.ltb_lt in Hlen.
  destruct (fold_sum_within M f (metrics st) 0%Q 0%Z HM) as (s & Hs & Hb);
    [change (inject_Z 0) with 0%Q; lra | exact Hm |].
  unfold sum_field. rewrite Hs. unfold jsdiv, of_Z.
  rewrite (OrchestratorFacts.count_nonzero _ Hlen).
  eexists. split; [reflexivity|].
  simpl (0 + _)%Z in Hb.
  assert (0 < inject_Z (Z.of_nat (length (metrics st))))%Q as Hpos.
  { change 0%Q with (inject_Z 0). rewrite <- Zlt_Qlt. lia. }
  split.
  - apply Qle_shift_div_l; [exact Hpos|]. rewrite Qmult_0_l. apply Hb.
  - apply Qle_shift_div_r; [exact Hpos|]. apply Hb.
Qed.

(** X19: averages of percentages are percentages.  If every CPU and
    memory value stored is missing, [NaN] or a number between [0] and
    [100], then [averageCPU] and [averageMemory] of the aggregate are
    numbers between [0] and [100].  (The bound is an integer that doubles
    represent exactly, as they do its multiples by the number of
    snapshots: rounding to the nearest double cannot carry a sum of [k]
    such values past [100 k], nor their average past [100].) *)
Theorem averages_within_bounds st :
  (∀ kv, kv ∈ metrics st → within 100 (cpu kv.2) ∧ within 100 (memory kv.2)) →
  ∃ a b,
    averageCPU (aggregate st) = Fin a ∧ (0 <= a <= 100)%Q
    ∧ averageMemory (aggregate st) = Fin b ∧ (0 <= b <= 100)%Q.
Proof.
  intros Hm.
  assert (0 <= 100)%Q as HM by (vm_compute; discriminate).
  destruct (average_within 100 cpu st HM) as (a & Ha & Hab); [intros kv H; by apply Hm|].
  destruct (average_within 100 memory st HM) as (b & Hb & Hbb); [intros kv H; by apply Hm|].
  exists a, b. unfold aggregate. simpl. auto.
Qed.

Lemma averages_within_bounds_witness :
  ∃ a b,
    averageCPU (aggregate stale_store) = Fin a ∧ (0 <= a <= 100)%Q
    ∧ averageMemory (aggregate stale_store) = Fin b ∧ (0 <= b <= 100)%Q.
Proof.
  apply (averages_within_bounds stale_store).
  intros kv Hin. simpl in Hin. apply list_elem_of_singleton in Hin as ->.
  simpl. split; split; vm_compute; discriminate.
Defined.

(** ** CDN and relay activation *)

(** X20: CDN activation reuses the distribution of the broadcast.
    [activateCDN] leaves the broadcast with a distribution and never
    touches the distribution of another broadcast; when the broadcast
    already has one, no distribution is created (no handle is drawn, no
    creation call leaves the orchestrator) and the four configuration
    calls are issued for the existing one. *)
Theorem activateCDN_reuses_distribution b st :
  (∃ d, cdnDistributions (activateCDN b st) !! b = Some d)
  ∧ (∀ b', b' ≠ b →
           cdnDistributions (activateCDN b st) !! b' = cdnDistributions st !! b')
  ∧ (∀ d, cdnDistributions st !! b = Some d →
          cdnDistributions (activateCDN b st) = cdnDistributions st
          ∧ next_handle (activateCDN b st) = next_handle st
          ∧ log (activateCDN b st)
            = log st ++ [UpdateCDNOrigin d; EnableHLSPackaging b;
                         UpdateDNSForCDN b; PublishCdnActivated b])
  ∧ cdnDistributions (activateCDN b (activateCDN b st))
    = cdnDistributions (activateCDN b st)
  ∧ next_handle (activateCDN b (activateCDN b st)) = next_handle (activateCDN b st).
Proof.
  assert (∀ s d, cdnDistributions s !! b = Some d →
                 cdnDistributions (activateCDN b s) = cdnDistributions s
                 ∧ next_handle (activateCDN b s) = next_handle s
                 ∧ log (activateCDN b s)
                   = log s ++ [UpdateCDNOrigin d; EnableHLSPackaging b;
                               UpdateDNSForCDN b; PublishCdnActivated b]) as Hreuse.
  { intros s d Hd. unfold activateCDN. rewrite Hd. simpl.
    split; [done|]. split; [done|]. by rewrite <- !app_assoc. }
  assert (∃ d, cdnDistributions (activateCDN b st) !! b = Some d) as [d Hd].
  { unfold activateCDN. destruct (cdnDistributions st !! b) as [d|] eqn:E; simpl.
    - eauto.
    - rewrite lookup_insert_eq. eauto. }
  split; [eauto|]. split; [|split; [exact (Hreuse st)|]].
  - intros b' Hne. unfold activateCDN.
    destruct (cdnDistributions st !! b) as [d0|] eqn:E; simpl; [done|].
    by rewrite lookup_insert_ne.
  - destruct (Hreuse _ _ Hd) as (H1 & H2 & _). by split.
Qed.

Lemma activateCDN_reuses_distribution_witness :
  let st1 := activateCDN "X" (initial default_config t0) in
  cdnDistributions (activateCDN "X" st1) = cdnDistributions st1
  ∧ log (activateCDN "X" st1)
    = log st1 ++ [UpdateCDNOrigin 0; EnableHLSPackaging "X";
                  UpdateDNSForCDN "X"; PublishCdnActivated "X"].
Proof.
  intros st1.
  destruct (activateCDN_reuses_distribution "X" st1) as (_ & _ & Hre & _).
  destruct (Hre 0%nat) as (H1 & _ & H3); [vm_compute; reflexivity|].
  split; [exact H1 | exact H3].
Defined.

Lemma activateCDN_fresh b st :
  handles_fresh st → handles_fresh (activateCDN b st).
Proof.
  intros Hf k Hk. destruct (OrchestratorFacts.activateCDN_schedule b st) as [_ ->].
  apply Hf. unfold activateCDN in Hk.
  destruct (cdnDistributions st !! b); simpl in Hk; lia.
Qed.

(** X21: relay and CDN activation are not held back by the cooldown.  A
    tick of the scaling timer that falls inside the cooldown window
    leaves instance scaling alone, whatever the metrics, and runs the
    activation loop over the broadcasts as usual; a broadcast that has
    reached the relay threshold with its [relaysActivated] flag unset
    gets its relay. *)
Theorem tick_activation_ignores_cooldown m bs lsOf env st :
  (clock st - lastScaleAction st < cooldownPeriod (scaling (config st)))%Z →
  autoScalingTick m bs lsOf env st
  = Some (fold_left (activateFor (scaling (config st)) lsOf) bs st)
  ∧ (∀ b, handles_fresh st →
          (relayActivationThreshold (scaling (config st)) <= ab_listenerCount b)%Z →
          relaysActivated b = false →
          ∃ st', autoScalingTick m [b] lsOf env st = Some st'
                 ∧ size (relayNodes st') = S (size (relayNodes st))
                 ∧ scalingHistory st' = scalingHistory st
                 ∧ lastScaleAction st' = lastScaleAction st).
Proof.
  intros Hcd.
  assert (∀ bs', autoScalingTick m bs' lsOf env st
                 = Some (fold_left (activateFor (scaling (config st)) lsOf) bs' st))
    as Htick.
  { intros bs'. unfold autoScalingTick, scaleUp, scaleDown.
    destruct (Z.ltb_spec (clock st - lastScaleAction st)
                         (cooldownPeriod (scaling (config st)))) as [_|Hge]; [|lia].
    destruct (_ || _); [done|]. by destruct (_ && _). }
  split; [apply Htick|].
  intros b Hf Hth Hflag. rewrite Htick. eexists. split; [reflexivity|].
  pose proof (OrchestratorFacts.activate_all_schedule (scaling (config st)) lsOf [b] st)
    as (_ & Hh & Hl & _).
  split; [|split; [exact Hh | exact Hl]].
  simpl. unfold activateFor.
  assert ((relayActivationThreshold (scaling (config st)) <=? ab_listenerCount b)%Z
          && negb (relaysActivated b) = true) as ->.
  { rewrite Hflag. simpl. rewrite andb_true_r. by apply Z.leb_le. }
  set (s1 := if _ && _ then _ else st).
  assert (handles_fresh s1 ∧ relayNodes s1 = relayNodes st) as [Hf1 Hr1].
  { subst s1. destruct (_ && _); [|done].
    split; [by apply activateCDN_fresh | apply OrchestratorFacts.activateCDN_schedule]. }
  simpl. rewrite map_size_insert_None; [by rewrite Hr1|]. apply Hf1. lia.
Qed.

Lemma tick_activation_ignores_cooldown_witness :
  let st := advance 60000 (scaleUp "auto" (of_Z 300) idle_fleet) in
  ∃ st', autoScalingTick calm [broadcast_A] (λ _, listeners_A) quiet st = Some st'
         ∧ size (relayNodes st') = 1%nat
         ∧ lastScaleAction st' = lastScaleAction st.
Proof.
  intros st.
  destruct (tick_activation_ignores_cooldown calm [broadcast_A] (λ _, listeners_A)
              quiet st) as [_ H].
  - vm_compute. reflexivity.
  - destruct (H broadcast_A) as (st' & H1 & H2 & _ & H4).
    + intros k _. reflexivity.
    + vm_compute. discriminate.
    + reflexivity.
    + exists st'. split; [exact H1|]. split; [exact H2 | exact H4].
Defined.

(** ** Scale-up *)

(** X22: a scale-up for a numeric target stays within [maxInstances].
    With a non-zero [targetListenersPerInstance] and a finite target
    load, [scaleUp] either leaves everything as it is or launches a
    positive number of instances that brings the fleet to at most
    [maxInstances], announces that total in the ['scaled'] event and
    restarts the cooldown. *)
Theorem scaleUp_launch_bounded b x st :
  targetListenersPerInstance (scaling (config st)) ≠ 0%Z →
  scaleUp b (Fin x) st = st
  ∨ ∃ n,
      instancesToAdd (Fin x) st = Fin n
      ∧ (0 < n)%Q
      ∧ (inject_Z (Z.of_nat (length (instances st))) + n
         <= inject_Z (maxInstances (scaling (config st))))%Q
      ∧ log (scaleUp b (Fin x) st)
        = log st ++ [if useKubernetes (config st)
                     then ScaleKubernetesDeployment (Fin n)
                     else ScaleECSService (Fin n);
                     EmitScaled (Fin n)
                       (Fin (inject_Z (Z.of_nat (length (instances st))) + n))]
      ∧ lastScaleAction (scaleUp b (Fin x) st) = clock st.
Proof.
  intros Htl.
  assert (∃ n, instancesToAdd (Fin x) st = Fin n) as [n Hn].
  { unfold instancesToAdd, jsdiv, of_Z.
    assert (Qeq_bool (inject_Z (targetListenersPerInstance (scaling (config st)))) 0
            = false) as ->.
    { destruct (Qeq_bool _ _) eqn:E; [|done]. apply Qeq_bool_iff in E.
      unfold Qeq in E. simpl in E. lia. }
    simpl. destruct (Qle_bool _ _); eauto. }
  destruct (OrchestratorFacts.scaleUp_cases b (Fin x) st) as [Hsame|Hact]; [by left|].
  destruct Hact as (Hcd & Hpos & _ & _ & Hlast & _).
  right. exists n. split; [exact Hn|].
  pose proof (OrchestratorFacts.scaleUp_within_max (Fin x) st) as Hmax.
  rewrite Hn in Hpos, Hmax. simpl in Hpos.
  split; [by apply OrchestratorFacts.Qle_bool_false|].
  split; [apply Qle_bool_iff, Hmax; done|].
  split; [|exact Hlast].
  unfold scaleUp.
  destruct (Z.ltb_spec (clock st - lastScaleAction st)
                       (cooldownPeriod (scaling (config st)))) as [|_]; [lia|].
  rewrite Hn. simpl. rewrite Hpos. simpl. rewrite <- app_assoc. simpl.
  by destruct (useKubernetes (config st)).
Qed.

Lemma scaleUp_launch_bounded_witness :
  scaleUp "auto" (Fin 1000) idle_fleet = idle_fleet
  ∨ ∃ n,
      instancesToAdd (Fin 1000) idle_fleet = Fin n
      ∧ (0 < n)%Q
      ∧ (inject_Z 3 + n <= inject_Z 10)%Q.
Proof.
  destruct (scaleUp_launch_bounded "auto" 1000 idle_fleet) as [H|(n & H1 & H2 & H3 & _)].
  - simpl. discriminate.
  - by left.
  - right. exists n. split; [exact H1|]. split; [exact H2 | exact H3].
Defined.

(** X23: a scale-up whose target is not a number is not rejected.  When
    the cooldown has elapsed, a ['scale-up'] request without a numeric
    [targetLoad] passes the capacity test ([NaN <= 0] is false), asks the
    provider for [NaN] instances, whatever the size of the fleet, and
    restarts the cooldown. *)
Theorem scaleUp_without_target b st env ls :
  (cooldownPeriod (scaling (config st)) <= clock st - lastScaleAction st)%Z →
  ∃ st', handleScalingRequest env ls (mkRequest ReqScaleUp b NaN NaN) st = Some st'
         ∧ log st'
           = log st ++ [if useKubernetes (config st)
                        then ScaleKubernetesDeployment NaN
                        else ScaleECSService NaN;
                        EmitScaled NaN NaN]
         ∧ lastScaleAction st' = clock st
         ∧ instances st' = instances st.
Proof.
  intros Hcd. exists (scaleUp b NaN st). split; [reflexivity|].
  unfold scaleUp.
  destruct (Z.ltb_spec (clock st - lastScaleAction st)
                       (cooldownPeriod (scaling (config st)))) as [|_]; [lia|].
  change (instancesToAdd NaN st) with NaN.
  simpl. rewrite <- app_assoc. simpl.
  split; [by destruct (useKubernetes (config st))|]. done.
Qed.

Lemma scaleUp_without_target_witness :
  ∃ st', handleScalingRequest quiet [] (mkRequest ReqScaleUp "X" NaN NaN) idle_fleet
         = Some st'
         ∧ log st' = [ScaleECSService NaN; EmitScaled NaN NaN].
Proof.
  destruct (scaleUp_without_target "X" idle_fleet quiet []) as (st' & H1 & H2 & _).
  - vm_compute. discriminate.
  - exists st'. split; [exact H1 | exact H2].
Defined.

End OrchestratorExtra.
